(** * A shallow embedding of rust-hashsplit

    Bytes are [Byte.byte]; fixed-width integers are [Z] with their
    wrap-around written out ([u32] below).  Arithmetic on [u32] follows the
    release-mode (wrapping) semantics of the operators in the source. *)

From Stdlib Require Import ZArith Znumtheory Lia.
From Stdlib Require Import Strings.Byte.
From stdpp Require Import base list strings pretty.

Open Scope Z_scope.

(** Wrapping reduction of a [u32] computation. *)
Definition u32 (x : Z) : Z := x mod 2 ^ 32.

(** [old_byte as u32] *)
Definition byte_u32 (b : byte) : Z := Z.of_N (Byte.to_N b).

(* ------------------------------------------------------------------ *)
(** ** Significance levels ([impl Leveled], lib.rs) *)
Module Leveled.

(** The integer primitives for which the macro
    [implement_leveled_for_integer_primitive] is instantiated. *)
Inductive int_ty := I8 | I16 | I32 | I64 | I128 | U8 | U16 | U32 | U64 | U128.

Definition bits (t : int_ty) : nat :=
  match t with
  | I8 | U8 => 8 | I16 | U16 => 16 | I32 | U32 => 32
  | I64 | U64 => 64 | I128 | U128 => 128
  end.

Definition signed (t : int_ty) : bool :=
  match t with I8 | I16 | I32 | I64 | I128 => true | _ => false end.

(** The values of the type. *)
Definition in_range (t : int_ty) (x : Z) : Prop :=
  if signed t then - 2 ^ (Z.of_nat (bits t) - 1) <= x < 2 ^ (Z.of_nat (bits t) - 1)
  else 0 <= x < 2 ^ Z.of_nat (bits t).

(** [trailing_zeros] on a [w]-bit pattern: scan the bits from the least
    significant one; [w] when all of them are zero.  A negative value is
    read through its two's complement bits, as [Z.testbit] does. *)
Fixpoint tz_from (i : nat) (fuel : nat) (x : Z) : nat :=
  match fuel with
  | O => i
  | S f => if Z.testbit x (Z.of_nat i) then i else tz_from (S i) f x
  end.

Definition trailing_zeros (w : nat) (x : Z) : nat := tz_from 0 w x.

(** [fn level(self) -> u32 { self.trailing_zeros() }] *)
Definition level_int (t : int_ty) (x : Z) : nat := trailing_zeros (bits t) x.

(** [fn level(self) -> u32 { !self as u32 }] *)
Definition level_bool (b : bool) : nat := if negb b then 1%nat else 0%nat.

End Leveled.

(* ------------------------------------------------------------------ *)
(** ** The RRS family (algorithms/rrs.rs) *)
Module Rrs.

(** [process_byte_freestanding::<MODULUS, OFFSET>]; [W] is
    [WINDOW_SIZE], converted with [as u32].  [%] on [u32] is [Z.modulo]
    of non-negative operands; [MODULUS] is a non-zero constant. *)
Definition process_byte_freestanding (MODULUS OFFSET : Z) (W : nat)
    (state : Z * Z) (old_byte new_byte : byte) : Z * (Z * Z) :=
  let '(a, b) := state in
  let a_new := u32 (u32 (a - byte_u32 old_byte) + byte_u32 new_byte) mod MODULUS in
  let b_new :=
    u32 (u32 (b - u32 (u32 (Z.of_nat W) * u32 (byte_u32 old_byte + OFFSET)))
         + a_new) mod MODULUS in
  let new_state := (a_new, b_new) in
  let sum := u32 (b_new + u32 (Z.shiftl a_new 16)) in
  (sum, new_state).

(** [pub type Rrs1 = Rrs<25_536, 31>;] *)
Definition RRS1_MODULUS : Z := 25536.
Definition RRS1_OFFSET : Z := 31.

(** The update rule in mathematical modular arithmetic. *)
Definition rrs_math (MODULUS OFFSET : Z) (W : nat) (state : Z * Z)
    (old_byte new_byte : byte) : Z * (Z * Z) :=
  let '(a, b) := state in
  let a' := (a - byte_u32 old_byte + byte_u32 new_byte) mod MODULUS in
  let b' := (b - Z.of_nat W * (byte_u32 old_byte + OFFSET) + a') mod MODULUS in
  (a' * 2 ^ 16 + b', (a', b')).

End Rrs.

(* ------------------------------------------------------------------ *)
(** ** Bozo32 (algorithms/bozo32.rs) *)
Module Bozo32.

Definition PRIME : Z := 65521.

(** The [while i < WINDOW_SIZE] loop that computes [PRIME_POW] with
    [wrapping_mul]; [n] counts the iterations still to run. *)
Fixpoint prime_pow_loop (n : nat) (pow : Z) : Z :=
  match n with
  | O => pow
  | S n' => prime_pow_loop n' (u32 (pow * PRIME))
  end.

Definition PRIME_POW (WINDOW_SIZE : nat) : Z := prime_pow_loop WINDOW_SIZE 1.

Definition INITIAL_STATE : Z := 0.

(** [process_byte_freestanding]:
    [let sum = state * PRIME + new_byte as u32 - old_byte as u32 * PRIME_POW;] *)
Definition process_byte_freestanding (WINDOW_SIZE : nat) (state : Z)
    (old_byte new_byte : byte) : Z * Z :=
  let sum := u32 (u32 (u32 (state * PRIME) + byte_u32 new_byte)
                  - u32 (byte_u32 old_byte * PRIME_POW WINDOW_SIZE)) in
  (sum, sum).

End Bozo32.

(* ------------------------------------------------------------------ *)
(** ** Batched updates: [Hasher::process_slice] (lib.rs) and
       [Thinned::process_block] (thin.rs) *)
Module Batched.

Section ProcessSlice.
Context {Checksum State : Type} (default_checksum : Checksum).
(** [Hasher::process_byte(&self, state, width, old_byte, new_byte)] *)
Context (process_byte : State -> nat -> byte -> byte -> Checksum * State).

(** The provided [process_slice]:
    [old_data.iter().copied().zip(new_data.iter().copied())
       .fold((Default::default(), state), ...)].
    [zip] is [combine]: it stops at the end of the shorter input. *)
Definition process_slice (state : State) (width : nat)
    (old_data new_data : list byte) : Checksum * State :=
  fold_left (fun acc p => process_byte (snd acc) width (fst p) (snd p))
    (combine old_data new_data) (default_checksum, state).
End ProcessSlice.

Section ProcessBlock.
Context {Checksum State : Type} (default_checksum : Checksum).
(** [Hasher::process_byte(&self, state, old_byte, new_byte)] of the
    revision that thin.rs is written against. *)
Context (process_byte : State -> byte -> byte -> Checksum * State).
Context (BLOCK_SIZE : nat).

(** Modelled from the spec: [Hasher::process_sequence], called by
    thin.rs but not part of src/.  The spec: "A default batched form
    folds [process_byte] over paired old/new byte sequences", starting,
    like [process_slice], from the default checksum. *)
Definition process_sequence (state : State) (pairs : list (byte * byte))
    : Checksum * State :=
  fold_left (fun acc p => process_byte (snd acc) (fst p) (snd p))
    pairs (default_checksum, state).

(** The provided [process_block]; [None] is the panic of
    [assert_eq!(old_block.len(), Self::BLOCK_SIZE)]. *)
Definition process_block (state : State) (old_block new_block : list byte)
    : option (Checksum * State) :=
  if Nat.eqb (length old_block) BLOCK_SIZE
  then Some (process_sequence state (combine old_block new_block))
  else None.
End ProcessBlock.

(** [TrivialHasher] of lib.rs's test module: [Checksum = u8],
    [State = ()], [process_byte] returns [(new_byte, ())]. *)
Definition trivial_process_byte (_ : unit) (_ : nat) (_ : byte) (new_byte : byte)
    : byte * unit := (new_byte, tt).

End Batched.

(* ------------------------------------------------------------------ *)
(** ** The rolling window engine ([Rolling], lib.rs and iter.rs) *)
Module Ring.

Section Engine.
Context {Checksum State : Type} (INITIAL_STATE : State).
Context (process_byte : State -> byte -> byte -> Checksum * State).

(** [Rolling] without its [source]: [width] is lib.rs's [NonZeroUsize]
    field, and iter.rs's [WINDOW_SIZE] constant; [ring] is the boxed
    slice (lib.rs) or the array [[u8; WINDOW_SIZE]] (iter.rs). *)
Record Rolling := mkRolling {
  state : State;
  width : nat;
  begin : nat;
  ring : list byte;
}.

(** [Rolling::with_buf]: [None] when [buf] is empty
    ([NonZeroUsize::new(buf.len())?]). *)
Definition with_buf (buf : list byte) : option Rolling :=
  match length buf with
  | O => None
  | _ => Some (mkRolling INITIAL_STATE (length buf) 0 buf)
  end.

(** [Rolling::with_zeros] (lib.rs), and iter.rs's [Rolling::start] with
    [width = WINDOW_SIZE]. *)
Definition with_zeros (width : nat) : Rolling :=
  mkRolling INITIAL_STATE width 0 (repeat Byte.x00 width).

(** [Rolling::feed].  Indexing [self.ring[self.begin]] out of bounds
    panics: [None]. *)
Definition feed (r : Rolling) (byte : byte) : option (Checksum * Rolling) :=
  match ring r !! begin r with
  | None => None
  | Some old =>
      let '(sum, new_state) := process_byte (state r) old byte in
      let ring' := <[begin r := byte]> (ring r) in
      let begin' := S (begin r) in
      let begin'' := if Nat.eqb begin' (width r) then O else begin' in
      Some (sum, mkRolling new_state (width r) begin'' ring')
  end.

(** Feeding a whole byte sequence, collecting the checksums; [None]
    when one of the calls panics. *)
Fixpoint feed_all (r : Rolling) (bytes : list byte)
    : option (list Checksum * Rolling) :=
  match bytes with
  | [] => Some ([], r)
  | b :: rest =>
      match feed r b with
      | None => None
      | Some (sum, r') =>
          match feed_all r' rest with
          | None => None
          | Some (sums, r'') => Some (sum :: sums, r'')
          end
      end
  end.

(** The ring invariant. *)
Definition wf (r : Rolling) : Prop :=
  (begin r < width r)%nat /\ length (ring r) = width r.

End Engine.

End Ring.

(* ------------------------------------------------------------------ *)
(** ** Draining an iterator

    A Rust iterator is a state [S] with [next : S -> option A * S] (the
    [&mut self] of [next] is the state passed in and out).  [drain] polls
    it until the first [None], at most [fuel] times, and returns the items
    and the final state. *)
Fixpoint drain {S A : Type} (next : S -> option A * S) (fuel : nat) (s : S)
    : list A * S :=
  match fuel with
  | O => ([], s)
  | S f =>
      match next s with
      | (None, s') => ([], s')
      | (Some a, s') => let '(l, s'') := drain next f s' in (a :: l, s'')
      end
  end.

(* ------------------------------------------------------------------ *)
(** ** Boundary detection and chunk materialization (iter.rs) *)
Module Chunking.

(** [enum Boundary<Hash>]; the level is a [u32]. *)
Inductive Boundary (State : Type) :=
| Level (lev : nat) (st : State)
| Capped (st : State)
| Eof (st : State).
Arguments Level {State}. Arguments Capped {State}. Arguments Eof {State}.

(** [Boundary::into_state] *)
Definition into_state {State} (bd : Boundary State) : State :=
  match bd with Level _ st => st | Capped st => st | Eof st => st end.

Definition is_eof {State} (bd : Boundary State) : bool :=
  match bd with Eof _ => true | _ => false end.

(** [enum Event<Hash>] *)
Inductive Event (State : Type) :=
| Data (b : byte)
| Bnd (bd : Boundary State).
Arguments Data {State}. Arguments Bnd {State}.

(** The event grammar as the spec writes it,
    [Data* (Boundary | Capped) (Data* (Boundary | Capped))* Data* Eof]:
    [seen] records that a [Boundary] or [Capped] event has occurred. *)
Fixpoint event_grammar {State} (seen : bool) (es : list (Event State)) : bool :=
  match es with
  | [] => false
  | Data _ :: r => event_grammar seen r
  | Bnd bd :: r =>
      if is_eof bd then seen && match r with [] => true | _ => false end
      else event_grammar true r
  end.

(** [(Data+ (Boundary | Capped))* Data* Eof]: every [Boundary] or
    [Capped] event right after a [Data] event, one [Eof], and it is last. *)
Fixpoint boundaries_after_data {State} (after_data : bool) (es : list (Event State))
    : bool :=
  match es with
  | [] => false
  | Data _ :: r => boundaries_after_data true r
  | Bnd bd :: r =>
      if is_eof bd then match r with [] => true | _ => false end
      else after_data && boundaries_after_data false r
  end.

(** The chunk-length bound for one extent: [MIN_SIZE <= L <= MAX_SIZE]
    unless it ends at [Eof], [L <= MAX_SIZE] in any case. *)
Definition chunk_len_ok {State} (MIN_SIZE MAX_SIZE : nat) (x : nat * Boundary State)
    : Prop :=
  let '(len, bd) := x in
  if is_eof bd then (len <= MAX_SIZE)%nat else (MIN_SIZE <= len <= MAX_SIZE)%nat.

Section Detector.
Context {Checksum State Engine : Type}.
(** The rolling engine of iter.rs, seen through what the detector uses
    of it: [Rolling::feed] (for any hasher and window; its ring buffer
    is the subject of module [Ring]) and the current [state]. *)
Context (feed : Engine -> byte -> Checksum * Engine).
Context (engine_state : Engine -> State).
(** [Leveled::level] of the checksum type. *)
Context (level : Checksum -> nat).
Context (THRESHOLD MIN_SIZE MAX_SIZE : nat).

(** A [Rolling] is the engine together with its [source]; the source is
    a finite byte sequence. *)
Definition Input : Type := Engine * list byte.

(** [WithRolling::next]: [source.next().map(|byte| (byte, feed(byte)))] *)
Definition with_rolling_next (inp : Input) : option (byte * Checksum) * Input :=
  match snd inp with
  | [] => (None, inp)
  | b :: rest =>
      let '(sum, e') := feed (fst inp) b in (Some (b, sum), (e', rest))
  end.

(** [Rolling::next] of iter.rs: [source.next().map(|byte| feed(byte))] *)
Definition rolling_next (inp : Input) : option Checksum * Input :=
  match snd inp with
  | [] => (None, inp)
  | b :: rest =>
      let '(sum, e') := feed (fst inp) b in (Some sum, (e', rest))
  end.

Definition input_state (inp : Input) : State := engine_state (fst inp).

(** [struct Delimited] *)
Record Delimited := mkDelimited {
  prepared : option (option nat * State);
  counter : nat;
  halt : bool;
  input : Input;
}.

(** [Delimited::start] *)
Definition delimited_start (e : Engine) (source : list byte) : Delimited :=
  mkDelimited None 0 false (e, source).

(** [impl Iterator for Delimited]: [next] *)
Definition delimited_next (d : Delimited) : option (Event State) * Delimited :=
  if halt d then (None, d) else
  match prepared d with
  | Some (may, st) =>
      (Some (Bnd (match may with Some lev => Level lev st | None => Capped st end)),
       mkDelimited None (counter d) (halt d) (input d))
  | None =>
      match with_rolling_next (input d) with
      | (Some (byte, sum), inp) =>
          let counter' := S (counter d) in
          let lev := level sum in
          if Nat.leb THRESHOLD lev && Nat.leb MIN_SIZE counter' then
            (Some (Data byte),
             mkDelimited (Some (Some lev, input_state inp)) 0 false inp)
          else if Nat.eqb counter' MAX_SIZE then
            (Some (Data byte),
             mkDelimited (Some (None, input_state inp)) 0 false inp)
          else (Some (Data byte), mkDelimited None counter' false inp)
      | (None, inp) =>
          (Some (Bnd (Eof (input_state inp))),
           mkDelimited None (counter d) true inp)
      end
  end.

(** Polling [Delimited] to exhaustion: a source of [n] bytes gives at
    most [2 n + 1] events, so [2 n + 2] polls reach the first [None]. *)
Definition delimited_run (e : Engine) (source : list byte)
    : list (Event State) * Delimited :=
  drain delimited_next (2 * length source + 2) (delimited_start e source).

Definition events (e : Engine) (source : list byte) : list (Event State) :=
  fst (delimited_run e source).

(** [ResumableChunk]: the bytes (owned or borrowed) and the state. *)
Definition Chunk : Type := list byte * State.

(** [struct Splits]; the [reserve] capacity hint has no observable
    effect and is left out.  Its source is the [Delimited] iterator,
    given as the list of events it yields up to its first [None]; a
    halted [Delimited] yields [None] at every later poll. *)
Record Splits := mkSplits {
  preparing : option (list byte);
  ssource : list (Event State);
}.

(** The [while let Some(ev) = self.source.next()] loop of
    [Splits::next]; [get_or_insert_with(Vec::new).push(byte)] on
    [Data], [preparing.take().map(...)] on a boundary. *)
Fixpoint splits_loop (prep : option (list byte)) (src : list (Event State))
    : option Chunk * Splits :=
  match src with
  | [] => (None, mkSplits prep [])
  | Data b :: rest =>
      splits_loop (Some (match prep with None => [b] | Some l => l ++ [b] end)) rest
  | Bnd bd :: rest =>
      (option_map (fun p => (p, into_state bd)) prep, mkSplits None rest)
  end.

Definition splits_next (s : Splits) : option Chunk * Splits :=
  splits_loop (preparing s) (ssource s).

(** [Delimited::splits] on a fresh detector, drained. *)
Definition splits_run (e : Engine) (source : list byte) : list Chunk :=
  let es := events e source in
  fst (drain splits_next (S (length es)) (mkSplits None es)).

(** [struct Distances] *)
Record Distances := mkDistances {
  dcounter : nat;
  dhalt : bool;
  dinput : Input;
}.

(** [Extent { length, boundary }]; the [NonZeroUsize] length is a
    positive [nat]. *)
Definition Extent : Type := nat * Boundary State.

(** [Distances::yield_extent]: the counter is reset by
    [mem::replace] before [NonZeroUsize::new(..)?] is tested. *)
Definition yield_extent (d : Distances) (boundary : Boundary State)
    : option Extent * Distances :=
  let d' := mkDistances 0 (dhalt d) (dinput d) in
  match dcounter d with
  | O => (None, d')
  | S _ as length => (Some (length, boundary), d')
  end.

(** The [while let Some(sum) = self.input.next()] loop of
    [Distances::next], by recursion on the remaining source; the
    [halt = true] and final [yield_extent(Eof ..)] once it is empty. *)
Fixpoint distances_loop (cnt : nat) (e : Engine) (src : list byte)
    : option Extent * Distances :=
  match src with
  | [] => yield_extent (mkDistances cnt true (e, [])) (Eof (engine_state e))
  | b :: rest =>
      let '(sum, e') := feed e b in
      let cnt' := S cnt in
      let lev := level sum in
      if Nat.leb THRESHOLD lev && Nat.leb MIN_SIZE cnt' then
        yield_extent (mkDistances cnt' false (e', rest)) (Level lev (engine_state e'))
      else if Nat.eqb cnt' MAX_SIZE then
        yield_extent (mkDistances cnt' false (e', rest)) (Capped (engine_state e'))
      else distances_loop cnt' e' rest
  end.

Definition distances_next (d : Distances) : option Extent * Distances :=
  if dhalt d then (None, d)
  else distances_loop (dcounter d) (fst (dinput d)) (snd (dinput d)).

Definition distances_start (e : Engine) (source : list byte) : Distances :=
  mkDistances 0 false (e, source).

(** Every extent but the last [None] consumes a byte: [n + 1] polls. *)
Definition distances_run (e : Engine) (source : list byte) : list Extent :=
  fst (drain distances_next (S (length source)) (distances_start e source)).

(** [struct Spans]: the not yet yielded part of the buffer, and the
    [Distances] over [data.iter().copied()]. *)
Record Spans := mkSpans {
  saved : list byte;
  distances : Distances;
}.

Definition spans_start (e : Engine) (data : list byte) : Spans :=
  mkSpans data (distances_start e data).

(** [Spans::next]: [&prev[..length]] and [&prev[length..]]; the slice
    bounds hold on every call (lemma [spans_slices_in_bounds]). *)
Definition spans_next (sp : Spans) : option Chunk * Spans :=
  match distances_next (distances sp) with
  | (None, d') => (None, mkSpans (saved sp) d')
  | (Some (length, boundary), d') =>
      let prev := saved sp in
      (Some (firstn length prev, into_state boundary), mkSpans (skipn length prev) d')
  end.

Definition spans_run (e : Engine) (data : list byte) : list Chunk :=
  fst (drain spans_next (S (length data)) (spans_start e data)).

(** *** Structural descriptions of the runs

    The iterators above are polled to exhaustion; the functions below
    give, by recursion on the source, what those runs produce. *)
Local Open Scope nat_scope.

Fixpoint delim_trace (c : nat) (e : Engine) (src : list byte) : list (Event State) :=
  match src with
  | [] => [Bnd (Eof (engine_state e))]
  | b :: rest =>
      let '(sum, e') := feed e b in
      let c' := S c in
      let lev := level sum in
      if Nat.leb THRESHOLD lev && Nat.leb MIN_SIZE c' then
        Data b :: Bnd (Level lev (engine_state e')) :: delim_trace 0 e' rest
      else if Nat.eqb c' MAX_SIZE then
        Data b :: Bnd (Capped (engine_state e')) :: delim_trace 0 e' rest
      else Data b :: delim_trace c' e' rest
  end.

Fixpoint dist_all (c : nat) (e : Engine) (src : list byte) : list Extent :=
  match src with
  | [] => match c with O => [] | S _ => [(c, Eof (engine_state e))] end
  | b :: rest =>
      let '(sum, e') := feed e b in
      let c' := S c in
      let lev := level sum in
      if Nat.leb THRESHOLD lev && Nat.leb MIN_SIZE c' then
        (c', Level lev (engine_state e')) :: dist_all 0 e' rest
      else if Nat.eqb c' MAX_SIZE then
        (c', Capped (engine_state e')) :: dist_all 0 e' rest
      else dist_all c' e' rest
  end.

Fixpoint splits_all (p : option (list byte)) (es : list (Event State)) : list Chunk :=
  match es with
  | [] => []
  | Data b :: r =>
      splits_all (Some (match p with None => [b] | Some l => l ++ [b] end)) r
  | Bnd bd :: r =>
      match p with None => [] | Some l => (l, into_state bd) :: splits_all None r end
  end.

Fixpoint slice_all (sv : list byte) (exts : list Extent) : list Chunk :=
  match exts with
  | [] => []
  | (len, bd) :: t => (firstn len sv, into_state bd) :: slice_all (skipn len sv) t
  end.

(** Each [Spans::next] slices within the remaining buffer. *)
Fixpoint slices_fit (sv : list byte) (exts : list Extent) : Prop :=
  match exts with
  | [] => True
  | (len, _) :: t => len <= length sv /\ slices_fit (skipn len sv) t
  end.

(** The run lengths of an event stream, each with the boundary ending it. *)
Fixpoint segments (n : nat) (es : list (Event State)) : list Extent :=
  match es with
  | [] => []
  | Data _ :: r => segments (S n) r
  | Bnd bd :: r => (n, bd) :: segments 0 r
  end.

Definition opt_chunk (p : list byte) : option (list byte) :=
  match p with [] => None | _ => Some p end.

Lemma drain_S_fst {S' A} (next : S' -> option A * S') f s :
  fst (drain next (S f) s) =
  match fst (next s) with
  | None => []
  | Some a => a :: fst (drain next f (snd (next s)))
  end.
Proof.
  simpl. destruct (next s) as [[a|] s']; simpl; [|reflexivity].
  destruct (drain next f s'); reflexivity.
Qed.

Lemma delimited_halted (d : Delimited) :
  halt d = true -> delimited_next d = (None, d).
Proof. intros H. unfold delimited_next. rewrite H. reflexivity. Qed.

Lemma drain_delimited (src : list byte) :
  forall c e fuel, 2 * length src + 2 <= fuel ->
  exists dend,
    drain delimited_next fuel (mkDelimited None c false (e, src))
    = (delim_trace c e src, dend) /\ halt dend = true.
Proof.
  induction src as [|b rest IH]; intros c e fuel Hf.
  - destruct fuel as [|f]; [simpl in Hf; lia|].
    cbn [drain]. unfold delimited_next at 1. cbn.
    exists (mkDelimited None c true (e, [])). split; [|reflexivity].
    destruct f as [|f]; [reflexivity|]. cbn [drain].
    rewrite delimited_halted by reflexivity. reflexivity.
  - destruct fuel as [|f]; [simpl in Hf; lia|].
    cbn [drain]. unfold delimited_next at 1. cbn [halt prepared input].
    unfold with_rolling_next. cbn [fst snd].
    cbn [delim_trace]. destruct (feed e b) as [sum e'].
    cbn [counter]. unfold input_state. cbn [fst].
    destruct (Nat.leb THRESHOLD (level sum) && Nat.leb MIN_SIZE (S c)).
    + destruct f as [|f]; [simpl in Hf; lia|]. cbn [drain].
      unfold delimited_next at 1. cbn [halt prepared counter input].
      destruct (IH 0 e' f) as [dend [E H]]; [simpl in Hf; lia|].
      rewrite E. eauto.
    + destruct (Nat.eqb (S c) MAX_SIZE).
      * destruct f as [|f]; [simpl in Hf; lia|]. cbn [drain].
        unfold delimited_next at 1. cbn [halt prepared counter input].
        destruct (IH 0 e' f) as [dend [E H]]; [simpl in Hf; lia|].
        rewrite E. eauto.
      * destruct (IH (S c) e' f) as [dend [E H]]; [simpl in Hf; lia|].
        rewrite E. eauto.
Qed.

Lemma events_trace (e : Engine) (src : list byte) :
  events e src = delim_trace 0 e src.
Proof.
  unfold events, delimited_run, delimited_start.
  destruct (drain_delimited src 0 e (2 * length src + 2)) as [dend [E _]]; [lia|].
  rewrite E. reflexivity.
Qed.

Lemma distances_loop_spec (src : list byte) :
  forall c e,
  let '(o, d') := distances_loop c e src in
  (dhalt d' = true /\ dist_all c e src = match o with None => [] | Some x => [x] end)
  \/ (exists x e' rest, o = Some x /\ d' = mkDistances 0 false (e', rest)
      /\ length rest < length src /\ dist_all c e src = x :: dist_all 0 e' rest).
Proof.
  induction src as [|b rest IH]; intros c e.
  - destruct c; simpl; left; split; reflexivity.
  - cbn [distances_loop dist_all]. destruct (feed e b) as [sum e'].
    destruct (Nat.leb THRESHOLD (level sum) && Nat.leb MIN_SIZE (S c)).
    + right. do 3 eexists. repeat split; simpl; eauto.
    + destruct (Nat.eqb (S c) MAX_SIZE).
      * right. do 3 eexists. repeat split; simpl; eauto.
      * specialize (IH (S c) e').
        destruct (distances_loop (S c) e' rest) as [o d'].
        destruct IH as [IH | (x & e'' & rest' & E1 & E2 & L & E3)]; [left; exact IH|].
        right. exists x, e'', rest'. simpl. repeat split; auto.
Qed.

Lemma drain_distances_halted fuel (d : Distances) :
  dhalt d = true -> fst (drain distances_next fuel d) = [].
Proof.
  intros H. destruct fuel; [reflexivity|].
  rewrite drain_S_fst. unfold distances_next. rewrite H. reflexivity.
Qed.

Lemma drain_distances (fuel : nat) :
  forall src c e, length src < fuel ->
  fst (drain distances_next fuel (mkDistances c false (e, src))) = dist_all c e src.
Proof.
  induction fuel as [|f IH]; intros src c e Hf; [lia|].
  rewrite drain_S_fst. unfold distances_next. cbn [dhalt dcounter dinput fst snd].
  pose proof (distances_loop_spec src c e) as Hs.
  destruct (distances_loop c e src) as [o d'].
  destruct Hs as [[Hh E] | (x & e' & rest & -> & -> & L & E)]; cbn [fst snd].
  - rewrite E. destruct o as [x|]; [|reflexivity].
    rewrite drain_distances_halted by exact Hh. reflexivity.
  - rewrite E, IH by lia. reflexivity.
Qed.

Lemma distances_run_all (e : Engine) (src : list byte) :
  distances_run e src = dist_all 0 e src.
Proof. unfold distances_run, distances_start. apply drain_distances. lia. Qed.

Lemma splits_loop_spec (es : list (Event State)) :
  forall p,
  let '(o, s') := splits_loop p es in
  (o = None /\ splits_all p es = [])
  \/ (exists x rest, o = Some x /\ s' = mkSplits None rest
      /\ length rest < length es /\ splits_all p es = x :: splits_all None rest).
Proof.
  induction es as [|ev rest IH]; intros p.
  - left. split; reflexivity.
  - destruct ev as [b|bd]; cbn [splits_loop splits_all].
    + specialize (IH (Some (match p with None => [b] | Some l => l ++ [b] end))).
      destruct (splits_loop _ rest) as [o s'].
      destruct IH as [IH | (x & rest' & E1 & E2 & L & E3)]; [left; exact IH|].
      right. exists x, rest'. simpl. repeat split; auto.
    + destruct p as [l|].
      * right. do 2 eexists. repeat split; simpl; eauto.
      * left. split; reflexivity.
Qed.

Lemma drain_splits (fuel : nat) :
  forall es p, length es < fuel ->
  fst (drain splits_next fuel (mkSplits p es)) = splits_all p es.
Proof.
  induction fuel as [|f IH]; intros es p Hf; [lia|].
  rewrite drain_S_fst. unfold splits_next. cbn [preparing ssource].
  pose proof (splits_loop_spec es p) as Hs.
  destruct (splits_loop p es) as [o s'].
  destruct Hs as [[-> E] | (x & rest & -> & -> & L & E)]; cbn [fst snd].
  - rewrite E. reflexivity.
  - rewrite E, IH by lia. reflexivity.
Qed.

Lemma splits_run_all (e : Engine) (src : list byte) :
  splits_run e src = splits_all None (delim_trace 0 e src).
Proof.
  unfold splits_run. rewrite drain_splits by lia. rewrite events_trace. reflexivity.
Qed.

Lemma drain_spans (fuel : nat) :
  forall sp,
  fst (drain spans_next fuel sp)
  = slice_all (saved sp) (fst (drain distances_next fuel (distances sp))).
Proof.
  induction fuel as [|f IH]; intros sp; [reflexivity|].
  rewrite !drain_S_fst. unfold spans_next.
  destruct (distances_next (distances sp)) as [[[len bd]|] d']; cbn [fst snd]; [|reflexivity].
  rewrite IH. reflexivity.
Qed.

Lemma spans_run_all (e : Engine) (data : list byte) :
  spans_run e data = slice_all data (dist_all 0 e data).
Proof.
  unfold spans_run, spans_start. rewrite drain_spans. cbn [saved distances].
  unfold distances_start. rewrite drain_distances by lia. reflexivity.
Qed.

Lemma firstn_app_length (l r : list byte) : firstn (length l) (l ++ r) = l.
Proof. induction l; simpl; [reflexivity | now rewrite IHl]. Qed.

Lemma skipn_app_length (l r : list byte) : skipn (length l) (l ++ r) = r.
Proof. induction l; simpl; [reflexivity | exact IHl]. Qed.

Lemma opt_chunk_push (p : list byte) (b : byte) :
  match opt_chunk p with None => [b] | Some l => l ++ [b] end = p ++ [b].
Proof. destruct p; reflexivity. Qed.

Lemma opt_chunk_snoc (p : list byte) (b : byte) :
  opt_chunk (p ++ [b]) = Some (p ++ [b]).
Proof. destruct p; reflexivity. Qed.

(** The owned chunks of a run are the slices of the buffer at the
    extents of the same run. *)
Lemma splits_slices (src : list byte) :
  forall c e p, length p = c ->
  splits_all (opt_chunk p) (delim_trace c e src) = slice_all (p ++ src) (dist_all c e src).
Proof.
  induction src as [|b rest IH]; intros c e p Hp.
  - destruct p as [|x p']; simpl in Hp; subst c; [reflexivity|].
    cbn [delim_trace dist_all opt_chunk splits_all slice_all].
    rewrite app_nil_r. change (S (length p')) with (length (x :: p')).
    rewrite firstn_all. reflexivity.
  - cbn [delim_trace dist_all]. destruct (feed e b) as [sum e'].
    assert (Hs : p ++ b :: rest = (p ++ [b]) ++ rest) by (rewrite <- app_assoc; reflexivity).
    assert (Hl : length (p ++ [b]) = S c) by (rewrite length_app; simpl; lia).
    destruct (Nat.leb THRESHOLD (level sum) && Nat.leb MIN_SIZE (S c));
      [|destruct (Nat.eqb (S c) MAX_SIZE)];
      cbn [splits_all slice_all]; rewrite opt_chunk_push;
      [ | | rewrite <- opt_chunk_snoc].
    + rewrite Hs, <- Hl, firstn_app_length, skipn_app_length.
      specialize (IH 0 e' [] eq_refl). cbn [opt_chunk app] in IH.
      rewrite IH. reflexivity.
    + rewrite Hs, <- Hl, firstn_app_length, skipn_app_length.
      specialize (IH 0 e' [] eq_refl). cbn [opt_chunk app] in IH.
      rewrite IH. reflexivity.
    + rewrite Hs. apply IH. exact Hl.
Qed.

Lemma splits_concat (src : list byte) :
  forall c e p,
  concat (map fst (splits_all (opt_chunk p) (delim_trace c e src))) = p ++ src.
Proof.
  induction src as [|b rest IH]; intros c e p.
  - destruct p; simpl; [reflexivity | now rewrite app_nil_r].
  - cbn [delim_trace]. destruct (feed e b) as [sum e'].
    assert (Hs : p ++ b :: rest = (p ++ [b]) ++ rest) by (rewrite <- app_assoc; reflexivity).
    destruct (Nat.leb THRESHOLD (level sum) && Nat.leb MIN_SIZE (S c));
      [|destruct (Nat.eqb (S c) MAX_SIZE)];
      cbn [splits_all map concat fst]; rewrite opt_chunk_push;
      [ | | rewrite <- opt_chunk_snoc].
    + specialize (IH 0 e' []). cbn [opt_chunk app] in IH. rewrite IH, Hs. reflexivity.
    + specialize (IH 0 e' []). cbn [opt_chunk app] in IH. rewrite IH, Hs. reflexivity.
    + rewrite IH, Hs. reflexivity.
Qed.

Lemma slices_fit_all (src : list byte) :
  forall c e p, length p = c -> slices_fit (p ++ src) (dist_all c e src).
Proof.
  induction src as [|b rest IH]; intros c e p Hp.
  - destruct c; simpl; [exact I|]. rewrite app_nil_r. split; [lia | exact I].
  - cbn [dist_all]. destruct (feed e b) as [sum e'].
    assert (Hs : p ++ b :: rest = (p ++ [b]) ++ rest) by (rewrite <- app_assoc; reflexivity).
    assert (Hl : length (p ++ [b]) = S c) by (rewrite length_app; simpl; lia).
    destruct (Nat.leb THRESHOLD (level sum) && Nat.leb MIN_SIZE (S c));
      [|destruct (Nat.eqb (S c) MAX_SIZE)]; cbn [slices_fit].
    + rewrite Hs, <- Hl, skipn_app_length, !length_app.
      split; [lia | apply (IH 0 e' [] eq_refl)].
    + rewrite Hs, <- Hl, skipn_app_length, !length_app.
      split; [lia | apply (IH 0 e' [] eq_refl)].
    + rewrite Hs. apply IH. exact Hl.
Qed.

Lemma trace_grammar (src : list byte) :
  forall c e ad, boundaries_after_data ad (delim_trace c e src) = true.
Proof.
  induction src as [|b rest IH]; intros c e ad; [reflexivity|].
  cbn [delim_trace]. destruct (feed e b) as [sum e'].
  destruct (Nat.leb THRESHOLD (level sum) && Nat.leb MIN_SIZE (S c));
    [|destruct (Nat.eqb (S c) MAX_SIZE)]; cbn [boundaries_after_data is_eof andb]; apply IH.
Qed.

Lemma trace_segments_ok (src : list byte) :
  MIN_SIZE <= MAX_SIZE ->
  forall c e, c < MAX_SIZE ->
  Forall (chunk_len_ok MIN_SIZE MAX_SIZE) (segments c (delim_trace c e src)).
Proof.
  intros Hmm. induction src as [|b rest IH]; intros c e Hc.
  - simpl. constructor; [simpl; lia | constructor].
  - cbn [delim_trace]. destruct (feed e b) as [sum e'].
    destruct (Nat.leb THRESHOLD (level sum) && Nat.leb MIN_SIZE (S c)) eqn:E1;
      [|destruct (Nat.eqb (S c) MAX_SIZE) eqn:E2]; cbn [segments].
    + apply andb_true_iff in E1 as [_ E1]. apply Nat.leb_le in E1.
      constructor; [simpl; lia | apply IH; lia].
    + apply Nat.eqb_eq in E2. constructor; [simpl; lia | apply IH; lia].
    + apply Nat.eqb_neq in E2. apply IH. lia.
Qed.

Lemma dist_all_ok (src : list byte) :
  MIN_SIZE <= MAX_SIZE ->
  forall c e, c < MAX_SIZE ->
  Forall (chunk_len_ok MIN_SIZE MAX_SIZE) (dist_all c e src).
Proof.
  intros Hmm. induction src as [|b rest IH]; intros c e Hc.
  - destruct c; simpl; constructor; [simpl; lia | constructor].
  - cbn [dist_all]. destruct (feed e b) as [sum e'].
    destruct (Nat.leb THRESHOLD (level sum) && Nat.leb MIN_SIZE (S c)) eqn:E1;
      [|destruct (Nat.eqb (S c) MAX_SIZE) eqn:E2].
    + apply andb_true_iff in E1 as [_ E1]. apply Nat.leb_le in E1.
      constructor; [simpl; lia | apply IH; lia].
    + apply Nat.eqb_eq in E2. constructor; [simpl; lia | apply IH; lia].
    + apply Nat.eqb_neq in E2. apply IH. lia.
Qed.

(** Every slice [Spans::next] takes lies within the remaining buffer:
    the indexing in [Spans::next] never panics. *)
Lemma spans_slices_in_bounds (e : Engine) (data : list byte) :
  slices_fit data (distances_run e data).
Proof. rewrite distances_run_all. apply (slices_fit_all data 0 e [] eq_refl). Qed.

(** *** What each chunk carries, and where the detector cuts *)

(** The engine after feeding a byte sequence, and the checksums it
    gives on the way. *)
Definition feed_seq (e : Engine) (bs : list byte) : Engine :=
  fold_left (fun e b => snd (feed e b)) bs e.

Fixpoint checksums (e : Engine) (bs : list byte) : list Checksum :=
  match bs with
  | [] => []
  | b :: rest => let '(sum, e') := feed e b in sum :: checksums e' rest
  end.

(** Chunks whose stored states follow the engine from [e]: each state is
    the hasher state after the bytes of all chunks up to and including
    this one. *)
Fixpoint resumable (e : Engine) (chunks : list Chunk) : Prop :=
  match chunks with
  | [] => True
  | (bs, st) :: rest =>
      st = engine_state (feed_seq e bs) /\ resumable (feed_seq e bs) rest
  end.

(** The test of [Delimited::next] and [Distances::next] for a [Level]
    boundary after the [pos]-th byte of a chunk. *)
Definition level_cut (pos : nat) (sum : Checksum) : bool :=
  Nat.leb THRESHOLD (level sum) && Nat.leb MIN_SIZE pos.

(** [cuts_from c e src exts]: [exts] splits [src] (fed from engine [e],
    with [c] bytes of the current chunk already seen) by the cut rule.
    Each extent ends at the first position [pos] of its chunk where
    [level_cut pos] holds ([Level], with the level of that checksum) or,
    failing that, [pos = MAX_SIZE] ([Capped]); the bytes left at the end
    of the input form a last extent ended by [Eof]; each boundary holds
    the engine state after the extent's last byte. *)
Fixpoint cuts_from (c : nat) (e : Engine) (src : list byte) (exts : list Extent)
    : Prop :=
  match exts with
  | [] => c = 0 /\ src = []
  | (len, bd) :: rest =>
      let k := len - c in
      let chunk := firstn k src in
      let sums := checksums e chunk in
      0 < len /\ c <= len /\ k <= length src
      /\ (forall j s, j + 1 < k -> nth_error sums j = Some s ->
            level_cut (c + j + 1) s = false /\ c + j + 1 <> MAX_SIZE)
      /\ match bd with
         | Level lev st =>
             exists s, 0 < k /\ nth_error sums (k - 1) = Some s
               /\ level_cut len s = true /\ lev = level s
               /\ st = engine_state (feed_seq e chunk)
         | Capped st =>
             exists s, 0 < k /\ nth_error sums (k - 1) = Some s
               /\ level_cut len s = false /\ len = MAX_SIZE
               /\ st = engine_state (feed_seq e chunk)
         | Eof st =>
             k = length src /\ rest = []
             /\ (forall s, 0 < k -> nth_error sums (k - 1) = Some s ->
                   level_cut len s = false /\ len <> MAX_SIZE)
             /\ st = engine_state (feed_seq e chunk)
         end
      /\ cuts_from 0 (feed_seq e chunk) (skipn k src) rest
  end.

Lemma feed_seq_cons (e : Engine) (b : byte) (bs : list byte) :
  feed_seq e (b :: bs) = feed_seq (snd (feed e b)) bs.
Proof. reflexivity. Qed.

Lemma feed_seq_snoc (e : Engine) (bs : list byte) (b : byte) :
  feed_seq e (bs ++ [b]) = snd (feed (feed_seq e bs) b).
Proof. unfold feed_seq. rewrite fold_left_app. reflexivity. Qed.

Lemma splits_resumable (src : list byte) :
  forall c e0 p, length p = c ->
  resumable e0 (splits_all (opt_chunk p) (delim_trace c (feed_seq e0 p) src)).
Proof.
  induction src as [|b rest IH]; intros c e0 p Hp.
  - destruct p as [|x p']; [exact I|].
    cbn [delim_trace opt_chunk splits_all into_state resumable]. split; [reflexivity | exact I].
  - cbn [delim_trace]. destruct (feed (feed_seq e0 p) b) as [sum e'] eqn:Hf.
    assert (He' : feed_seq e0 (p ++ [b]) = e') by (rewrite feed_seq_snoc, Hf; reflexivity).
    assert (Hl : length (p ++ [b]) = S c) by (rewrite length_app; simpl; lia).
    destruct (Nat.leb THRESHOLD (level sum) && Nat.leb MIN_SIZE (S c));
      [|destruct (Nat.eqb (S c) MAX_SIZE)];
      cbn [splits_all into_state]; rewrite opt_chunk_push;
      [ | | rewrite <- opt_chunk_snoc].
    + cbn [resumable]. rewrite He'. split; [reflexivity|].
      exact (IH 0 e' [] eq_refl).
    + cbn [resumable]. rewrite He'. split; [reflexivity|].
      exact (IH 0 e' [] eq_refl).
    + rewrite <- He'. apply IH. exact Hl.
Qed.

Lemma dist_all_pos (src : list byte) :
  forall c e, Forall (fun x : Extent => 0 < fst x) (dist_all c e src).
Proof.
  induction src as [|b rest IH]; intros c e.
  - destruct c; constructor; [simpl; lia | constructor].
  - cbn [dist_all]. destruct (feed e b) as [sum e'].
    destruct (Nat.leb THRESHOLD (level sum) && Nat.leb MIN_SIZE (S c));
      [|destruct (Nat.eqb (S c) MAX_SIZE)]; try (constructor; [simpl; lia|]); apply IH.
Qed.

Lemma slice_all_nonempty (sv : list byte) (exts : list Extent) :
  slices_fit sv exts -> Forall (fun x : Extent => 0 < fst x) exts ->
  Forall (fun ch : Chunk => fst ch <> []) (slice_all sv exts).
Proof.
  revert sv. induction exts as [|[len bd] t IH]; intros sv Hfit Hpos; [constructor|].
  destruct Hfit as [Hle Hfit]. inversion Hpos as [|? ? Hp Hpos']; subst.
  cbn [slice_all]. constructor.
  - cbn [fst] in *. intros E. apply (f_equal length) in E.
    rewrite length_firstn in E. simpl in E. lia.
  - apply IH; assumption.
Qed.

Lemma checksums_cons (e : Engine) (b : byte) (bs : list byte) :
  checksums e (b :: bs) = fst (feed e b) :: checksums (snd (feed e b)) bs.
Proof. cbn [checksums]. destruct (feed e b); reflexivity. Qed.

Lemma dist_all_cuts (src : list byte) :
  forall c e, cuts_from c e src (dist_all c e src).
Proof.
  induction src as [|b rest IH]; intros c e.
  - destruct c as [|c'].
    + cbn. split; reflexivity.
    + cbn [dist_all cuts_from]. rewrite Nat.sub_diag. cbn [firstn skipn checksums length].
      split; [lia|]. split; [lia|]. split; [lia|].
      split; [intros j s Hj; lia|].
      split; [|cbn; split; reflexivity].
      split; [reflexivity|]. split; [reflexivity|]. split; [intros s Hk; lia|]. reflexivity.
  - cbn [dist_all]. destruct (feed e b) as [sum e'] eqn:Hf.
    destruct (Nat.leb THRESHOLD (level sum) && Nat.leb MIN_SIZE (S c)) eqn:Hcut;
      [|destruct (Nat.eqb (S c) MAX_SIZE) eqn:Hmax].
    + cbn [cuts_from]. replace (S c - c) with 1 by lia.
      cbn [firstn skipn length]. rewrite checksums_cons, Hf. cbn [checksums fst snd].
      unfold feed_seq at 1 2. cbn [fold_left]. rewrite Hf. cbn [snd].
      split; [lia|]. split; [lia|]. split; [lia|].
      split; [intros j s Hj; lia|].
      split; [|exact (IH 0 e')].
      exists sum. repeat split; [lia | exact Hcut].
    + apply Nat.eqb_eq in Hmax.
      cbn [cuts_from]. replace (S c - c) with 1 by lia.
      cbn [firstn skipn length]. rewrite checksums_cons, Hf. cbn [checksums fst snd].
      unfold feed_seq at 1 2. cbn [fold_left]. rewrite Hf. cbn [snd].
      split; [lia|]. split; [lia|]. split; [lia|].
      split; [intros j s Hj; lia|].
      split; [|exact (IH 0 e')].
      exists sum. repeat split; [lia | exact Hcut | exact Hmax].
    + apply Nat.eqb_neq in Hmax.
      specialize (IH (S c) e').
      destruct (dist_all (S c) e' rest) as [|[len bd] t] eqn:Edist.
      { destruct IH as [H0 _]. discriminate. }
      cbn [cuts_from] in IH |- *.
      destruct IH as (Hpos & Hcl & Hk & Hinner & Hbd & Hrest).
      assert (Hk' : len - c = S (len - S c)) by lia. rewrite Hk'.
      cbn [firstn skipn length]. rewrite checksums_cons, Hf. cbn [fst snd].
      rewrite feed_seq_cons, Hf. cbn [snd].
      split; [lia|]. split; [lia|]. split; [lia|].
      split.
      { intros j s Hj Hs. destruct j as [|j'].
        - cbn in Hs. injection Hs as <-. split; [|lia].
          replace (c + 0 + 1) with (S c) by lia. exact Hcut.
        - cbn [nth_error] in Hs. destruct (Hinner j' s ltac:(lia) Hs) as [H1 H2].
          replace (c + S j' + 1) with (S c + j' + 1) by lia. split; [exact H1 | lia]. }
      split; [|exact Hrest].
      destruct bd as [lev st|st|st].
      * destruct Hbd as (s & Hk0 & Hs & Hc & Hlev & Hst).
        exists s. split; [lia|]. split; [|auto].
        replace (S (len - S c) - 1) with (S (len - S c - 1)) by lia. exact Hs.
      * destruct Hbd as (s & Hk0 & Hs & Hc & Hlen & Hst).
        exists s. split; [lia|]. split; [|auto].
        replace (S (len - S c) - 1) with (S (len - S c - 1)) by lia. exact Hs.
      * destruct Hbd as (Hkl & Ht & Hlast & Hst).
        split; [lia|]. split; [exact Ht|]. split; [|exact Hst].
        intros s _ Hs. destruct (len - S c) as [|k''] eqn:Ek.
        -- cbn in Hs. injection Hs as <-. split; [|lia].
           replace len with (S c) by lia. exact Hcut.
        -- replace (S (S k'') - 1) with (S (S k'' - 1)) in Hs by lia.
           cbn [nth_error] in Hs. apply (Hlast s); [lia | exact Hs].
Qed.

Lemma segments_dist_all (src : list byte) :
  forall c e,
  filter (fun x : Extent => negb (Nat.eqb (fst x) 0)) (segments c (delim_trace c e src))
  = dist_all c e src
  /\ Forall (fun x : Extent => fst x = 0 -> is_eof (snd x) = true)
       (segments c (delim_trace c e src)).
Proof.
  induction src as [|b rest IH]; intros c e.
  - destruct c as [|c']; cbn; split; try reflexivity;
      constructor; [cbn; reflexivity | constructor | cbn; lia | constructor].
  - cbn [delim_trace dist_all]. destruct (feed e b) as [sum e'].
    destruct (Nat.leb THRESHOLD (level sum) && Nat.leb MIN_SIZE (S c));
      [|destruct (Nat.eqb (S c) MAX_SIZE)]; cbn [segments].
    + destruct (IH 0 e') as [H1 H2]. rewrite filter_cons. cbn [fst negb Nat.eqb].
      rewrite H1. split; [reflexivity|]. constructor; [cbn; lia | exact H2].
    + destruct (IH 0 e') as [H1 H2]. rewrite filter_cons. cbn [fst negb Nat.eqb].
      rewrite H1. split; [reflexivity|]. constructor; [cbn; lia | exact H2].
    + apply IH.
Qed.

(** *** Properties of the detector and the materializers *)

Lemma feed_seq_app (e : Engine) (bs1 bs2 : list byte) :
  feed_seq e (bs1 ++ bs2) = feed_seq (feed_seq e bs1) bs2.
Proof. unfold feed_seq. apply fold_left_app. Qed.

Lemma resumable_prefix (chunks : list Chunk) :
  forall e, resumable e chunks ->
  forall i ch, nth_error chunks i = Some ch ->
  snd ch = engine_state (feed_seq e (concat (map fst (firstn (S i) chunks)))).
Proof.
  induction chunks as [|[bs st] rest IH]; intros e Hr i ch Hi; [destruct i; discriminate|].
  destruct Hr as [Hst Hrest]. destruct i as [|i].
  - injection Hi as <-. cbn. rewrite app_nil_r. exact Hst.
  - cbn [firstn map concat]. rewrite feed_seq_app.
    exact (IH _ Hrest i ch Hi).
Qed.

(** The state stored with the [i]-th chunk, by [Splits] and by [Spans],
    is the hasher state of the engine after feeding, from the start,
    all the bytes of chunks [0] to [i]: the bytes of the input up to and
    including that chunk.  Only this state is stored, not the ring. *)
Theorem chunk_states_after_prefix (e : Engine) (src : list byte) :
  (forall i ch, nth_error (splits_run e src) i = Some ch ->
     snd ch = engine_state (feed_seq e (concat (map fst (firstn (S i) (splits_run e src))))))
  /\ (forall i ch, nth_error (spans_run e src) i = Some ch ->
     snd ch = engine_state (feed_seq e (concat (map fst (firstn (S i) (spans_run e src)))))).
Proof.
  split; apply resumable_prefix.
  - rewrite splits_run_all. exact (splits_resumable src 0 e [] eq_refl).
  - rewrite spans_run_all.
    pose proof (splits_slices src 0 e [] eq_refl) as H.
    cbn [app opt_chunk] in H. rewrite <- H.
    exact (splits_resumable src 0 e [] eq_refl).
Qed.

(** [Distances] cuts the input by the rule of [cuts_from]: at the first
    byte where the chunk has at least [MIN_SIZE] bytes and the level of
    the checksum reaches [THRESHOLD] ([Level] with that level), otherwise
    at [MAX_SIZE] bytes ([Capped]); what is left at the end is one extent
    ended by [Eof]; each boundary carries the state after its last byte. *)
Theorem distances_cut_rule (e : Engine) (src : list byte) :
  cuts_from 0 e src (distances_run e src).
Proof. rewrite distances_run_all. apply dist_all_cuts. Qed.

(** No extent has length 0 and no chunk of [Splits] or [Spans] is empty;
    on the empty input none is yielded. *)
Theorem chunks_nonempty (e : Engine) (src : list byte) :
  Forall (fun x : Extent => 0 < fst x) (distances_run e src)
  /\ Forall (fun ch : Chunk => fst ch <> []) (splits_run e src)
  /\ Forall (fun ch : Chunk => fst ch <> []) (spans_run e src)
  /\ distances_run e [] = [] /\ splits_run e [] = [] /\ spans_run e [] = [].
Proof.
  assert (Hsp : Forall (fun ch : Chunk => fst ch <> []) (spans_run e src)).
  { rewrite spans_run_all. apply slice_all_nonempty.
    - apply (slices_fit_all src 0 e [] eq_refl).
    - apply dist_all_pos. }
  split; [rewrite distances_run_all; apply dist_all_pos|].
  split.
  - rewrite splits_run_all. pose proof (splits_slices src 0 e [] eq_refl) as H.
    cbn [app opt_chunk] in H. rewrite H. rewrite spans_run_all in Hsp. exact Hsp.
  - split; [exact Hsp|].
    rewrite distances_run_all, splits_run_all, spans_run_all. cbn. auto.
Qed.

(** The runs of [Data] events of [Delimited], each with the boundary
    event after it, are the extents of [Distances], except for an empty
    run before [Eof] (when the input ends right after a boundary, or is
    empty), which [Distances] does not yield. *)
Theorem delimited_runs_are_extents (e : Engine) (src : list byte) :
  filter (fun x : Extent => negb (Nat.eqb (fst x) 0)) (segments 0 (events e src))
  = distances_run e src
  /\ Forall (fun x : Extent => fst x = 0 -> is_eof (snd x) = true)
       (segments 0 (events e src)).
Proof.
  rewrite events_trace, distances_run_all. apply segments_dist_all.
Qed.

(** *** Claims on the boundary detector and the materializers *)

(** C1 (amended): given [MIN_SIZE <= MAX_SIZE] and [MAX_SIZE >= 1], for
    every input, every chunk that the detector delimits (the runs of
    [Data] events of [Delimited], and the extents of [Distances]) has a
    length [L] with [MIN_SIZE <= L <= MAX_SIZE] unless it is ended by
    [Eof]; the chunk ended by [Eof] has [L <= MAX_SIZE]. *)
Theorem chunk_length_bound :
  MIN_SIZE <= MAX_SIZE -> 0 < MAX_SIZE ->
  forall (e : Engine) (src : list byte),
  Forall (chunk_len_ok MIN_SIZE MAX_SIZE) (segments 0 (events e src))
  /\ Forall (chunk_len_ok MIN_SIZE MAX_SIZE) (distances_run e src).
Proof.
  intros Hmm Hpos e src. split.
  - rewrite events_trace. apply trace_segments_ok; assumption.
  - rewrite distances_run_all. apply dist_all_ok; assumption.
Qed.

(** C2: for every input, the owned chunks of [Splits] and the borrowed
    slices of [Spans], concatenated in order, give back the input. *)
Theorem concat_roundtrip (e : Engine) (src : list byte) :
  concat (map fst (splits_run e src)) = src
  /\ concat (map fst (spans_run e src)) = src.
Proof.
  split.
  - rewrite splits_run_all. apply (splits_concat src 0 e []).
  - rewrite spans_run_all.
    pose proof (splits_slices src 0 e [] eq_refl) as H.
    cbn [app opt_chunk] in H. rewrite <- H.
    apply (splits_concat src 0 e []).
Qed.

(** C3 (amended): polling [Delimited] to exhaustion yields events of the
    form [(Data+ (Boundary | Capped))* Data* Eof] (every [Boundary] or
    [Capped] event right after a [Data] event, exactly one [Eof], last),
    and once it has yielded [Eof] every later poll yields [None] and
    leaves the detector unchanged. *)
Theorem event_stream_shape (e : Engine) (src : list byte) :
  let '(es, dend) := delimited_run e src in
  boundaries_after_data false es = true /\ delimited_next dend = (None, dend).
Proof.
  unfold delimited_run, delimited_start.
  destruct (drain_delimited src 0 e (2 * length src + 2)) as [dend [E H]]; [lia|].
  rewrite E. split; [apply trace_grammar | apply delimited_halted; exact H].
Qed.

(** C7: on an input held in one buffer, [Spans] (over [Distances])
    yields the same chunks as [Splits] (over [Delimited]): the same
    bytes with the same end states, in the same order. *)
Theorem spans_eq_splits (e : Engine) (data : list byte) :
  spans_run e data = splits_run e data.
Proof.
  rewrite spans_run_all, splits_run_all.
  symmetry. apply (splits_slices data 0 e [] eq_refl).
Qed.

End Detector.

End Chunking.

Module RingFacts.
Import Ring.

Section Facts.
Context {Checksum State : Type}.
Context (process_byte : State -> byte -> byte -> Checksum * State).

Lemma feed_wf_step (r : Rolling) (b : byte) :
  wf r -> exists sum r', feed process_byte r b = Some (sum, r') /\ wf r'.
Proof.
  intros [Hb Hl]. unfold feed.
  destruct (ring r !! begin r) as [old|] eqn:E.
  2:{ apply lookup_ge_None in E. lia. }
  destruct (process_byte (state r) old b) as [sum st'].
  eexists _, _. split; [reflexivity|]. split; cbn [begin width ring].
  - destruct (Nat.eqb (S (begin r)) (width r)) eqn:Eq;
      [apply Nat.eqb_eq in Eq | apply Nat.eqb_neq in Eq]; lia.
  - rewrite length_insert. exact Hl.
Qed.

Lemma feed_not_none (r : Rolling) (b : byte) :
  wf r -> feed process_byte r b <> None.
Proof.
  intros H E. destruct (feed_wf_step r b H) as (? & ? & E' & _). congruence.
Qed.

Lemma feed_pres (r : Rolling) (b : byte) (p : Checksum * Rolling) :
  wf r -> feed process_byte r b = Some p -> wf (snd p).
Proof.
  intros H E. destruct (feed_wf_step r b H) as (? & ? & E' & W).
  rewrite E in E'. inversion E'. subst. exact W.
Qed.

Lemma with_zeros_wf (INITIAL_STATE : State) (w : nat) :
  (0 < w)%nat -> wf (with_zeros INITIAL_STATE w).
Proof. intros H. split; simpl; [lia | apply repeat_length]. Qed.

Lemma with_buf_wf (INITIAL_STATE : State) (buf : list byte) (r : Rolling) :
  with_buf INITIAL_STATE buf = Some r -> wf r.
Proof.
  unfold with_buf. destruct (length buf) eqn:E; [discriminate|].
  intros H. inversion H; subst. split; simpl; lia.
Qed.

(** A ring buffer in which the invariant holds never faults, so the
    engine can be fed as a total function. *)
Definition feed_in (r : {r : Rolling | wf r}) (b : byte)
    : Checksum * {r : Rolling | wf r} :=
  match feed process_byte (proj1_sig r) b as o
        return feed process_byte (proj1_sig r) b = o -> _ with
  | Some p => fun E => (fst p, exist _ (snd p) (feed_pres _ _ _ (proj2_sig r) E))
  | None => fun E => False_rect _ (feed_not_none _ _ (proj2_sig r) E)
  end eq_refl.

Lemma feed_all_wf (bytes : list byte) : forall r,
  wf r -> exists sums r', feed_all process_byte r bytes = Some (sums, r') /\ wf r'.
Proof.
  induction bytes as [|b rest IH]; intros r H; simpl.
  - eauto.
  - destruct (feed_wf_step r b H) as (sum & r' & -> & H').
    destruct (IH r' H') as (sums & r'' & -> & H''). eauto.
Qed.

(** C10: the write cursor of a [Rolling] stays below the window width,
    which is the length of the ring, after construction ([with_zeros]
    of a non-zero width, which iter.rs's [start] is at [WINDOW_SIZE],
    and [with_buf] of a non-empty buffer) and after every [feed]; so
    feeding any byte sequence never indexes the ring out of bounds. *)
Theorem ring_cursor_in_bounds (INITIAL_STATE : State) :
  (forall (w : nat), (0 < w)%nat -> forall (bytes : list byte),
     exists sums r', feed_all process_byte (with_zeros INITIAL_STATE w) bytes
                     = Some (sums, r') /\ wf r')
  /\ (forall (buf : list byte),
       match with_buf INITIAL_STATE buf with
       | None => buf = []
       | Some r => forall (bytes : list byte),
           exists sums r', feed_all process_byte r bytes = Some (sums, r') /\ wf r'
       end).
Proof.
  split.
  - intros w Hw bytes. apply feed_all_wf, with_zeros_wf, Hw.
  - intros buf. destruct (with_buf INITIAL_STATE buf) as [r|] eqn:E.
    + intros bytes. apply feed_all_wf. eapply with_buf_wf. exact E.
    + unfold with_buf in E. destruct buf; [reflexivity|discriminate].
Qed.

End Facts.
End RingFacts.

(** A concrete engine: [Bozo32] in the ring buffer of iter.rs, for a
    window of 64 bytes, with [u32] levels. *)
Module Example.
Definition W : nat := 64.
Definition hasher := Bozo32.process_byte_freestanding W.
Definition Engine : Type := {r : Ring.Rolling (State:=Z) | Ring.wf r}.
Definition start : Engine :=
  exist _ (Ring.with_zeros Bozo32.INITIAL_STATE W)
    (RingFacts.with_zeros_wf Bozo32.INITIAL_STATE W (Nat.lt_0_succ 63)).
Definition feed : Engine -> byte -> Z * Engine := RingFacts.feed_in hasher.
Definition engine_state (e : Engine) : Z := Ring.state (proj1_sig e).
Definition level : Z -> nat := Leveled.level_int Leveled.U32.
End Example.



(* ------------------------------------------------------------------ *)
(** ** Configuration names ([impl Display for Size], [impl Display for
       Config], config.rs); sizes are [usize], thresholds [u32]. *)
Module Config.
Local Open Scope N_scope.

(** [impl Display for Size]; [write!(f, "{}", _)] of an integer is its
    decimal rendering, [pretty]. *)
Definition size_fmt (z : N) : string :=
  if N.eqb (z mod 2 ^ 30) 0 then pretty (N.shiftr z 30) +:+ "Gi"
  else if N.eqb (z mod 2 ^ 20) 0 then pretty (N.shiftr z 20) +:+ "Mi"
  else if N.eqb (z mod 2 ^ 10) 0 then pretty (N.shiftr z 10) +:+ "Ki"
  else pretty z.

(** [impl Display for Config]:
    [write!(f, "HashSplit_{}_{}_{}_{}", THRESHOLD, Hash::NAME, Size(MIN_SIZE), Size(MAX_SIZE))] *)
Definition config_fmt (THRESHOLD : N) (NAME : string) (MIN_SIZE MAX_SIZE : N) : string :=
  "HashSplit_" +:+ pretty THRESHOLD +:+ "_" +:+ NAME +:+ "_"
  +:+ size_fmt MIN_SIZE +:+ "_" +:+ size_fmt MAX_SIZE.

(** [impl Named for Rrs1] *)
Definition RRS1_NAME : string := "RRS1".

End Config.

(* ------------------------------------------------------------------ *)
(** ** Proofs about the hash functions *)
Module HashFacts.

Lemma u32_mod_pow2 (k x : Z) : 0 <= k <= 32 -> u32 x mod 2 ^ k = x mod 2 ^ k.
Proof.
  intros Hk. unfold u32. apply Z.mod_mod_divide.
  exists (2 ^ (32 - k)). rewrite <- Z.pow_add_r by lia. f_equal. lia.
Qed.

Lemma prime_pow_loop_mod (n : nat) : forall p,
  Bozo32.prime_pow_loop n p mod 2 ^ 32 = (p * Bozo32.PRIME ^ Z.of_nat n) mod 2 ^ 32.
Proof.
  induction n as [|n IH]; intros p; simpl Bozo32.prime_pow_loop.
  - rewrite Z.mul_1_r. reflexivity.
  - rewrite IH. unfold u32. rewrite Z.mul_mod_idemp_l by lia.
    rewrite Nat2Z.inj_succ, Z.pow_succ_r by lia. f_equal. ring.
Qed.

(** C9: [Bozo32]'s update is [state * 65521 + new - old * 65521^W]
    modulo [2^32], and the checksum is the new state. *)
Theorem bozo32_update (W : nat) (state : Z) (old_byte new_byte : byte) :
  Bozo32.process_byte_freestanding W state old_byte new_byte
  = let s := (state * 65521 + byte_u32 new_byte
              - byte_u32 old_byte * 65521 ^ Z.of_nat W) mod 2 ^ 32 in (s, s).
Proof.
  unfold Bozo32.process_byte_freestanding, Bozo32.PRIME_POW. cbv zeta.
  assert (E : u32 (u32 (u32 (state * Bozo32.PRIME) + byte_u32 new_byte)
                   - u32 (byte_u32 old_byte * Bozo32.prime_pow_loop W 1))
              = (state * 65521 + byte_u32 new_byte
                 - byte_u32 old_byte * 65521 ^ Z.of_nat W) mod 2 ^ 32).
  { set (P := Bozo32.prime_pow_loop W 1).
    assert (HP : P mod 2 ^ 32 = 65521 ^ Z.of_nat W mod 2 ^ 32).
    { unfold P. rewrite prime_pow_loop_mod, Z.mul_1_l. reflexivity. }
    unfold u32. rewrite Zminus_mod_idemp_r, Zminus_mod_idemp_l.
    rewrite <- Z.add_sub_assoc, Z.add_mod_idemp_l, Z.add_sub_assoc by lia.
    rewrite <- (Zminus_mod_idemp_r _ (byte_u32 old_byte * P)).
    rewrite <- (Z.mul_mod_idemp_r (byte_u32 old_byte) P) by lia.
    rewrite HP, Z.mul_mod_idemp_r, Zminus_mod_idemp_r by lia. reflexivity. }
  rewrite E. reflexivity.
Qed.

Lemma rrs_pack (a b : Z) :
  0 <= a < 2 ^ 16 -> 0 <= b < 2 ^ 16 ->
  u32 (b + u32 (Z.shiftl a 16)) = a * 2 ^ 16 + b.
Proof.
  intros Ha Hb. unfold u32. rewrite Z.shiftl_mul_pow2 by lia.
  rewrite (Z.mod_small (a * 2 ^ 16)) by nia.
  rewrite Z.mod_small by nia. ring.
Qed.

(** C5: for a modulus [2^k] with [k <= 16] (the [1 << 16] of rrs.rs's
    constructors among them), the [u32] computation of
    [process_byte_freestanding] agrees with the update rule in
    mathematical modular arithmetic, for every state and all bytes:
    [a' = (a - old + new) mod M], [b' = (b - W (old + OFFSET) + a') mod M],
    and the checksum has [a'] in its high and [b'] in its low 16 bits. *)
Theorem rrs_update_pow2 (k : nat) :
  (k <= 16)%nat ->
  forall (OFFSET : Z) (W : nat) (state : Z * Z) (old_byte new_byte : byte),
  Rrs.process_byte_freestanding (2 ^ Z.of_nat k) OFFSET W state old_byte new_byte
  = Rrs.rrs_math (2 ^ Z.of_nat k) OFFSET W state old_byte new_byte.
Proof.
  intros Hk OFFSET W [a b] o n.
  set (M := 2 ^ Z.of_nat k).
  assert (HM : 0 < M) by (apply Z.pow_pos_nonneg; lia).
  assert (HM16 : M <= 2 ^ 16) by (apply Z.pow_le_mono_r; lia).
  assert (Hk' : 0 <= Z.of_nat k <= 32) by lia.
  unfold Rrs.process_byte_freestanding, Rrs.rrs_math. cbv zeta.
  assert (HA : u32 (u32 (a - byte_u32 o) + byte_u32 n) mod M
               = (a - byte_u32 o + byte_u32 n) mod M).
  { unfold M. rewrite u32_mod_pow2 by exact Hk'.
    rewrite <- Z.add_mod_idemp_l, u32_mod_pow2, Z.add_mod_idemp_l by (auto || lia).
    reflexivity. }
  assert (HX : u32 (u32 (Z.of_nat W) * u32 (byte_u32 o + OFFSET)) mod M
               = Z.of_nat W * (byte_u32 o + OFFSET) mod M).
  { unfold M. rewrite u32_mod_pow2 by exact Hk'.
    rewrite Z.mul_mod, !u32_mod_pow2, <- Z.mul_mod by (auto || lia). reflexivity. }
  assert (HB : forall a',
    u32 (u32 (b - u32 (u32 (Z.of_nat W) * u32 (byte_u32 o + OFFSET))) + a') mod M
    = (b - Z.of_nat W * (byte_u32 o + OFFSET) + a') mod M).
  { intros a'. unfold M. rewrite u32_mod_pow2 by exact Hk'.
    rewrite <- Z.add_mod_idemp_l, u32_mod_pow2 by (auto || lia).
    fold M. rewrite <- Zminus_mod_idemp_r, HX, Zminus_mod_idemp_r.
    rewrite Z.add_mod_idemp_l by lia. reflexivity. }
  rewrite HA, HB. f_equal. apply rrs_pack.
  - pose proof (Z.mod_pos_bound (a - byte_u32 o + byte_u32 n) M HM). lia.
  - pose proof (Z.mod_pos_bound (b - Z.of_nat W * (byte_u32 o + OFFSET)
                   + (a - byte_u32 o + byte_u32 n) mod M) M HM). lia.
Qed.

(** *** Levels *)

Lemma tz_from_spec (fuel : nat) : forall i x,
  let n := Leveled.tz_from i fuel x in
  (i <= n <= i + fuel)%nat
  /\ (forall j, (i <= j < n)%nat -> Z.testbit x (Z.of_nat j) = false)
  /\ ((n < i + fuel)%nat -> Z.testbit x (Z.of_nat n) = true).
Proof.
  induction fuel as [|f IH]; intros i x; simpl.
  - repeat split; intros; lia.
  - destruct (Z.testbit x (Z.of_nat i)) eqn:E.
    + repeat split; intros; try lia. exact E.
    + destruct (IH (S i) x) as (H1 & H2 & H3). repeat split.
      * lia.
      * lia.
      * intros j Hj. destruct (Nat.eq_dec j i) as [->|]; [exact E|]. apply H2. lia.
      * intros Hn. apply H3. lia.
Qed.

Lemma low_bits_divide (x : Z) (n : nat) :
  (forall j, (j < n)%nat -> Z.testbit x (Z.of_nat j) = false) ->
  (2 ^ Z.of_nat n | x).
Proof.
  intros H. apply Z.mod_divide; [apply Z.pow_nonzero; lia|].
  apply Z.bits_inj_0. intros m.
  destruct (Z.lt_ge_cases m 0) as [Hm|Hm]; [apply Z.testbit_neg_r; exact Hm|].
  destruct (Z.lt_ge_cases m (Z.of_nat n)) as [Hmn|Hmn].
  - rewrite Z.mod_pow2_bits_low by exact Hmn.
    rewrite <- (Z2Nat.id m) by exact Hm. apply H. lia.
  - apply Z.mod_pow2_bits_high. lia.
Qed.

Lemma divide_bit_false (x : Z) (n : nat) :
  (2 ^ (Z.of_nat n + 1) | x) -> Z.testbit x (Z.of_nat n) = false.
Proof. intros [q ->]. apply Z.mul_pow2_bits_low. lia. Qed.

Lemma in_range_multiple (t : Leveled.int_ty) (x : Z) :
  Leveled.in_range t x -> (2 ^ Z.of_nat (Leveled.bits t) | x) -> x = 0.
Proof.
  intros Hr [q ->].
  destruct t; unfold Leveled.in_range, Leveled.bits, Leveled.signed in *; cbn in *; lia.
Qed.

(** C4 (amended): on every value [x] of each signed and unsigned integer
    type, [level] is the number of trailing zero bits: the bit width for
    [0], otherwise the [n] with [2^n] dividing [x] and [2^(n+1)] not; on
    [bool] it is [1] for [false] and [0] for [true]. *)
Theorem level_trailing_zeros :
  (forall (t : Leveled.int_ty) (x : Z), Leveled.in_range t x ->
     (x = 0 -> Leveled.level_int t x = Leveled.bits t)
     /\ (x <> 0 ->
         (2 ^ Z.of_nat (Leveled.level_int t x) | x)
         /\ ~ (2 ^ (Z.of_nat (Leveled.level_int t x) + 1) | x)))
  /\ Leveled.level_bool false = 1%nat /\ Leveled.level_bool true = 0%nat.
Proof.
  split; [|split; reflexivity].
  intros t x Hr. unfold Leveled.level_int, Leveled.trailing_zeros.
  destruct (tz_from_spec (Leveled.bits t) 0 x) as (H1 & H2 & H3).
  set (n := Leveled.tz_from 0 (Leveled.bits t) x) in *.
  split.
  - intros ->. destruct (Nat.lt_ge_cases n (Leveled.bits t)) as [Hn|Hn]; [|lia].
    specialize (H3 Hn). rewrite Z.testbit_0_l in H3. discriminate.
  - intros Hx.
    assert (Hlow : forall j, (j < n)%nat -> Z.testbit x (Z.of_nat j) = false)
      by (intros j Hj; apply H2; lia).
    destruct (Nat.lt_ge_cases n (Leveled.bits t)) as [Hn|Hn].
    + split; [apply low_bits_divide; exact Hlow|].
      intros Hd. apply divide_bit_false in Hd. rewrite H3 in Hd by lia. discriminate.
    + exfalso. apply Hx. apply (in_range_multiple t x Hr).
      replace (Leveled.bits t) with n by lia. apply low_bits_divide. exact Hlow.
Qed.

End HashFacts.

(* ------------------------------------------------------------------ *)
(** ** Proofs about the batched updates *)
Module BatchedFacts.
Import Batched.

Lemma combine_firstn_l {A B} (l1 : list A) (l2 : list B) :
  combine (firstn (length l2) l1) l2 = combine l1 l2.
Proof.
  revert l2. induction l1 as [|x l1 IH]; intros [|y l2]; simpl; try reflexivity.
  rewrite IH. reflexivity.
Qed.

Lemma combine_firstn_r {A B} (l1 : list A) (l2 : list B) :
  combine l1 (firstn (length l1) l2) = combine l1 l2.
Proof.
  revert l2. induction l1 as [|x l1 IH]; intros [|y l2]; simpl; try reflexivity.
  rewrite IH. reflexivity.
Qed.

(** C6 (amended): no batched update checks that the two sequences have
    the same length.  [process_slice] folds [process_byte] over the pairs
    of the shorter length and returns the result; [process_block] panics
    exactly when the old block is not [BLOCK_SIZE] long, and otherwise
    returns the fold over the pairs, truncated to the new block. *)
Theorem batched_truncates :
  (forall (Checksum State : Type) (d : Checksum)
          (pb : State -> nat -> byte -> byte -> Checksum * State)
          (state : State) (width : nat) (old_data new_data : list byte),
     process_slice d pb state width old_data new_data
     = process_slice d pb state width (firstn (length new_data) old_data) new_data
     /\ process_slice d pb state width old_data new_data
        = process_slice d pb state width old_data (firstn (length old_data) new_data))
  /\ (forall (Checksum State : Type) (d : Checksum)
             (pb : State -> byte -> byte -> Checksum * State) (BLOCK_SIZE : nat)
             (state : State) (old_block new_block : list byte),
        (length old_block <> BLOCK_SIZE -> process_block d pb BLOCK_SIZE state old_block new_block = None)
        /\ (length old_block = BLOCK_SIZE ->
            process_block d pb BLOCK_SIZE state old_block new_block
            = Some (process_sequence d pb state
                      (combine (firstn (length new_block) old_block) new_block)))).
Proof.
  split.
  - intros. unfold process_slice. rewrite combine_firstn_l, combine_firstn_r. split; reflexivity.
  - intros. unfold process_block. split; intros H.
    + destruct (Nat.eqb_spec (length old_block) BLOCK_SIZE); [contradiction | reflexivity].
    + rewrite H, Nat.eqb_refl, combine_firstn_l. reflexivity.
Qed.

End BatchedFacts.

(* ------------------------------------------------------------------ *)
(** ** Proofs about configuration names *)
Module ConfigFacts.
Import Config.
Local Open Scope N_scope.

Lemma size_shift (k : N) (s : N) : N.shiftr (k * 2 ^ s) s = k.
Proof.
  rewrite N.shiftr_div_pow2. apply N.div_mul. apply N.pow_nonzero. lia.
Qed.

Lemma mod_eqb_mul (k s : N) : N.eqb ((k * 2 ^ s) mod 2 ^ s) 0 = true.
Proof. rewrite N.Div0.mod_mul. reflexivity. Qed.

Lemma mod_eqb_not_divide (z m : N) : m <> 0 -> ~ (m | z) -> N.eqb (z mod m) 0 = false.
Proof.
  intros Hm Hd. destruct (N.eqb_spec (z mod m) 0) as [E|E]; [|reflexivity].
  exfalso. apply Hd. apply N.Lcm0.mod_divide; assumption.
Qed.

(** C8: a size [z] renders as [z/2^30] then [Gi] when [2^30] divides it,
    else as [z/2^20] then [Mi] when [2^20] does, else as [z/2^10] then
    [Ki] when [2^10] does, else in decimal; a configuration renders as
    [HashSplit_<THRESHOLD>_<NAME>_<MIN_SIZE>_<MAX_SIZE>];
    [(13, RRS1, 65536, 2097152)] renders as [HashSplit_13_RRS1_64Ki_2Mi]. *)
Theorem config_display :
  (forall k, size_fmt (k * 2 ^ 30) = pretty k +:+ "Gi")
  /\ (forall k, ~ (2 ^ 30 | k * 2 ^ 20) -> size_fmt (k * 2 ^ 20) = pretty k +:+ "Mi")
  /\ (forall k, ~ (2 ^ 30 | k * 2 ^ 10) -> ~ (2 ^ 20 | k * 2 ^ 10) ->
      size_fmt (k * 2 ^ 10) = pretty k +:+ "Ki")
  /\ (forall z, ~ (2 ^ 10 | z) -> ~ (2 ^ 20 | z) -> ~ (2 ^ 30 | z) -> size_fmt z = pretty z)
  /\ (forall THRESHOLD NAME MIN_SIZE MAX_SIZE,
      config_fmt THRESHOLD NAME MIN_SIZE MAX_SIZE
      = "HashSplit_" +:+ pretty THRESHOLD +:+ "_" +:+ NAME +:+ "_"
        +:+ size_fmt MIN_SIZE +:+ "_" +:+ size_fmt MAX_SIZE)
  /\ config_fmt 13 RRS1_NAME 65536 2097152 = "HashSplit_13_RRS1_64Ki_2Mi".
Proof.
  assert (P10 : 2 ^ 10 <> 0) by (apply N.pow_nonzero; lia).
  assert (P20 : 2 ^ 20 <> 0) by (apply N.pow_nonzero; lia).
  assert (P30 : 2 ^ 30 <> 0) by (apply N.pow_nonzero; lia).
  split; [|split; [|split; [|split; [|split]]]].
  - intros k. unfold size_fmt. rewrite mod_eqb_mul, size_shift. reflexivity.
  - intros k H30. unfold size_fmt.
    rewrite (mod_eqb_not_divide _ _ P30 H30), mod_eqb_mul, size_shift. reflexivity.
  - intros k H30 H20. unfold size_fmt.
    rewrite (mod_eqb_not_divide _ _ P30 H30), (mod_eqb_not_divide _ _ P20 H20).
    rewrite mod_eqb_mul, size_shift. reflexivity.
  - intros z H10 H20 H30. unfold size_fmt.
    rewrite (mod_eqb_not_divide _ _ P30 H30), (mod_eqb_not_divide _ _ P20 H20).
    rewrite (mod_eqb_not_divide _ _ P10 H10). reflexivity.
  - reflexivity.
  - vm_compute. reflexivity.
Qed.

End ConfigFacts.

Module Window.

(** The bytes of the window of a [Rolling], oldest first: the ring read
    from the cursor [begin] round to just before it. *)
Definition window {State} (r : Ring.Rolling (State:=State)) : list byte :=
  drop (Ring.begin r) (Ring.ring r) ++ take (Ring.begin r) (Ring.ring r).

(** The polynomial [Bozo32] hashes, by Horner's rule in base [PRIME]. *)
Definition poly (l : list byte) : Z :=
  fold_left (fun acc b => acc * Bozo32.PRIME + byte_u32 b) l 0.

(** The sum of the bytes, and the sum weighted by [len - i] for the
    [i]-th byte, of RRS. *)
Fixpoint byte_sum (l : list byte) : Z :=
  match l with [] => 0 | x :: t => byte_u32 x + byte_sum t end.

Fixpoint weighted (l : list byte) : Z :=
  match l with
  | [] => 0
  | x :: t => Z.of_nat (length l) * byte_u32 x + weighted t
  end.

End Window.

Module WindowFacts.
Import Ring Window.

Section Feed.
Context {Checksum State : Type}.
Context (process_byte : State -> byte -> byte -> Checksum * State).

Lemma feed_window (r : Rolling (State:=State)) (b : byte) :
  wf r ->
  exists old r',
    hd_error (window r) = Some old
    /\ feed process_byte r b = Some (fst (process_byte (state r) old b), r')
    /\ state r' = snd (process_byte (state r) old b)
    /\ wf r' /\ width r' = width r
    /\ window r' = tl (window r) ++ [b].
Proof.
  intros [Hb Hl]. unfold feed.
  destruct (lookup_lt_is_Some_2 (ring r) (begin r)) as [old Hold]; [lia|].
  rewrite Hold.
  destruct (process_byte (state r) old b) as [sum st'] eqn:Hpb.
  eexists old, _. unfold window.
  rewrite (drop_S _ _ _ Hold). cbn [hd_error tl app]. rewrite Hpb.
  split; [reflexivity|]. split; [reflexivity|]. split; [reflexivity|].
  rewrite (insert_take_drop (ring r) (begin r) b) by lia.
  assert (Ht : length (take (begin r) (ring r)) = begin r) by (apply length_take_le; lia).
  unfold wf. destruct (Nat.eqb (S (begin r)) (width r)) eqn:Eq;
    [apply Nat.eqb_eq in Eq | apply Nat.eqb_neq in Eq];
    cbn [begin width ring].
  - split; [split; [lia|] | split; [reflexivity|]].
    + rewrite length_app, Ht. cbn [length]. rewrite length_drop. lia.
    + rewrite drop_0, take_0, app_nil_r.
      rewrite (drop_ge (ring r) (S (begin r))) by lia. reflexivity.
  - split; [split; [lia|] | split; [reflexivity|]].
    + rewrite length_app, Ht. cbn [length]. rewrite length_drop. lia.
    + rewrite drop_app_ge, take_app_ge by lia. rewrite Ht.
      replace (S (begin r) - begin r)%nat with 1%nat by lia.
      cbn [drop take]. rewrite take_0, <- app_assoc. reflexivity.
Qed.

Lemma window_length (r : Rolling (State:=State)) : wf r -> length (window r) = width r.
Proof.
  intros [Hb Hl]. unfold window. rewrite length_app, length_drop, length_take. lia.
Qed.

(** Feeding a sequence, with an invariant of the state, the window and
    the number of bytes fed, kept by each call of [process_byte]. *)
Lemma feed_all_inv (Inv : State -> list byte -> nat -> Prop) :
  (forall s w n old b, Inv s w n -> hd_error w = Some old ->
     Inv (snd (process_byte s old b)) (tl w ++ [b]) (S n)) ->
  forall bs (r : Rolling (State:=State)) n, wf r -> Inv (state r) (window r) n ->
  exists sums r',
    feed_all process_byte r bs = Some (sums, r')
    /\ wf r' /\ width r' = width r
    /\ window r' = skipn (length bs) (window r ++ bs)
    /\ Inv (state r') (window r') (n + length bs)%nat.
Proof.
  intros Hstep bs. induction bs as [|b rest IH]; intros r n Hwf Hinv.
  - exists [], r. rewrite Nat.add_0_r, app_nil_r. cbn. auto 10.
  - destruct (feed_window r b Hwf) as (old & r1 & Hhd & Hf & Hs & Hwf1 & Hw1 & Hwin1).
    assert (Hinv1 : Inv (state r1) (window r1) (S n)).
    { rewrite Hs, Hwin1. apply Hstep; assumption. }
    destruct (IH r1 (S n) Hwf1 Hinv1) as (sums & r' & Hfa & Hwf' & Hw' & Hwin' & Hinv').
    exists (fst (process_byte (state r) old b) :: sums), r'. cbn [feed_all].
    rewrite Hf, Hfa. split; [reflexivity|]. split; [exact Hwf'|]. split; [congruence|].
    split.
    + rewrite Hwin', Hwin1. pose proof (window_length r Hwf) as Hlen.
      destruct (window r) as [|x t]; [destruct Hwf; cbn in Hlen; lia|].
      cbn [tl length skipn app]. rewrite <- app_assoc. reflexivity.
    + replace (n + length (b :: rest))%nat with (S n + length rest)%nat by (simpl; lia).
      exact Hinv'.
Qed.

End Feed.

Section FeedSum.
Context {State : Type}.
Context (process_byte : State -> byte -> byte -> State * State).

(** When the checksum is the new state, the checksum of the last byte
    fed is the final state. *)
Lemma feed_all_last_sum :
  (forall s old b, fst (process_byte s old b) = snd (process_byte s old b)) ->
  forall bs (r : Rolling (State:=State)) sums r', wf r -> bs <> [] ->
  feed_all process_byte r bs = Some (sums, r') -> last sums = Some (state r').
Proof.
  intros Hsum bs. induction bs as [|b rest IH]; intros r sums r' Hwf Hne Hfa; [congruence|].
  destruct (feed_window process_byte r b Hwf) as (old & r1 & _ & Hf & Hs & Hwf1 & _).
  cbn [feed_all] in Hfa. rewrite Hf in Hfa.
  destruct (feed_all process_byte r1 rest) as [[sums1 r1']|] eqn:E; [|discriminate].
  injection Hfa as Hs1 Hr1. subst sums r1'.
  destruct rest as [|b' rest'].
  - cbn in E. injection E as Hs2 Hr2. subst sums1 r'. cbn. rewrite Hsum, Hs. reflexivity.
  - specialize (IH r1 sums1 r' Hwf1 ltac:(discriminate) E).
    destruct sums1 as [|s1 sums1']; [discriminate|]. exact IH.
Qed.

End FeedSum.

Lemma window_with_zeros {State} (IS : State) (w : nat) :
  window (with_zeros IS w) = repeat Byte.x00 w.
Proof. unfold window, with_zeros. cbn. rewrite app_nil_r. reflexivity. Qed.

Lemma skipn_last_window (W : nat) (p w : list byte) :
  length w = W -> skipn (length (p ++ w)) (repeat Byte.x00 W ++ p ++ w) = w.
Proof.
  intros Hw. rewrite app_assoc, length_app.
  replace (length p + length w)%nat with (length (repeat Byte.x00 W ++ p)) by
    (rewrite length_app, repeat_length; lia).
  apply drop_app_length.
Qed.

(** *** Bozo32 *)

Lemma poly_acc (l : list byte) : forall acc,
  fold_left (fun acc b => acc * Bozo32.PRIME + byte_u32 b) l acc
  = acc * Bozo32.PRIME ^ Z.of_nat (length l) + poly l.
Proof.
  unfold poly. induction l as [|x t IH]; intros acc; cbn [fold_left length].
  - rewrite Z.pow_0_r. lia.
  - rewrite (IH (acc * _ + _)), (IH (0 * _ + _)).
    rewrite Nat2Z.inj_succ, Z.pow_succ_r by lia. ring.
Qed.

Lemma poly_cons (x : byte) (t : list byte) :
  poly (x :: t) = byte_u32 x * Bozo32.PRIME ^ Z.of_nat (length t) + poly t.
Proof. unfold poly at 1. cbn [fold_left]. rewrite poly_acc. ring. Qed.

Lemma poly_snoc (t : list byte) (b : byte) :
  poly (t ++ [b]) = poly t * Bozo32.PRIME + byte_u32 b.
Proof. unfold poly. rewrite fold_left_app. reflexivity. Qed.

Lemma poly_zeros (n : nat) : poly (repeat Byte.x00 n) = 0.
Proof.
  induction n as [|n IH]; [reflexivity|].
  cbn [repeat]. rewrite poly_cons, IH. reflexivity.
Qed.

Lemma mod_mul_add (a m c d : Z) : m <> 0 -> ((a mod m) * c + d) mod m = (a * c + d) mod m.
Proof.
  intros Hm. rewrite <- Z.add_mod_idemp_l, Z.mul_mod_idemp_l, Z.add_mod_idemp_l by exact Hm.
  reflexivity.
Qed.

Lemma bozo32_step (W : nat) (state : Z) (o n : byte) :
  Bozo32.process_byte_freestanding W state o n
  = let s := (state * 65521 + byte_u32 n - byte_u32 o * 65521 ^ Z.of_nat W) mod 2 ^ 32 in
    (s, s).
Proof.
  unfold Bozo32.process_byte_freestanding, Bozo32.PRIME_POW. cbv zeta.
  set (P := Bozo32.prime_pow_loop W 1).
  assert (HP : P mod 2 ^ 32 = 65521 ^ Z.of_nat W mod 2 ^ 32).
  { unfold P. rewrite HashFacts.prime_pow_loop_mod, Z.mul_1_l. reflexivity. }
  assert (E : u32 (u32 (u32 (state * Bozo32.PRIME) + byte_u32 n) - u32 (byte_u32 o * P))
              = (state * 65521 + byte_u32 n - byte_u32 o * 65521 ^ Z.of_nat W) mod 2 ^ 32).
  { unfold u32. rewrite Zminus_mod_idemp_r, Zminus_mod_idemp_l.
    rewrite <- Z.add_sub_assoc, Z.add_mod_idemp_l, Z.add_sub_assoc by lia.
    rewrite <- (Zminus_mod_idemp_r _ (byte_u32 o * P)).
    rewrite <- (Z.mul_mod_idemp_r (byte_u32 o) P) by lia.
    rewrite HP, Z.mul_mod_idemp_r, Zminus_mod_idemp_r by lia. reflexivity. }
  rewrite E. reflexivity.
Qed.

(** The state of a [Rolling] of width [W] over [Bozo32] (whose
    [PRIME_POW] is taken at the same [W]), fed from the all-zero window:
    the Horner polynomial of its window, modulo [2^32]. *)
Lemma bozo32_feed_all (W : nat) : (0 < W)%nat ->
  forall bs, exists sums r',
    feed_all (Bozo32.process_byte_freestanding W) (with_zeros Bozo32.INITIAL_STATE W) bs
    = Some (sums, r')
    /\ window r' = skipn (length bs) (repeat Byte.x00 W ++ bs)
    /\ state r' = poly (window r') mod 2 ^ 32
    /\ (bs <> [] -> last sums = Some (state r')).
Proof.
  intros HW bs.
  set (Inv := fun (s : Z) (w : list byte) (_ : nat) => length w = W /\ s = poly w mod 2 ^ 32).
  assert (Hstep : forall s w n old b, Inv s w n -> hd_error w = Some old ->
     Inv (snd (Bozo32.process_byte_freestanding W s old b)) (tl w ++ [b]) (S n)).
  { intros s w n old b [Hlen Hs] Hhd. destruct w as [|x t]; [discriminate|].
    injection Hhd as ->. cbn [tl]. rewrite bozo32_step. cbn [snd]. split.
    - rewrite length_app. cbn [length] in *. lia.
    - rewrite Hs, poly_snoc, <- Z.add_sub_assoc, mod_mul_add by lia.
      rewrite poly_cons. f_equal.
      cbn [length] in Hlen. subst W. rewrite Nat2Z.inj_succ, Z.pow_succ_r by lia.
      unfold Bozo32.PRIME. ring. }
  assert (Hwf := RingFacts.with_zeros_wf Bozo32.INITIAL_STATE W HW).
  assert (Hinv0 : Inv (state (with_zeros Bozo32.INITIAL_STATE W))
                      (window (with_zeros Bozo32.INITIAL_STATE W)) 0%nat).
  { rewrite window_with_zeros. split; [apply repeat_length|].
    rewrite poly_zeros. reflexivity. }
  destruct (feed_all_inv _ Inv Hstep bs _ 0%nat Hwf Hinv0)
    as (sums & r' & Hfa & Hwf' & _ & Hwin & _ & Hs).
  exists sums, r'. rewrite window_with_zeros in Hwin.
  split; [exact Hfa|]. split; [exact Hwin|]. split; [exact Hs|].
  intros Hne. refine (feed_all_last_sum _ _ bs _ _ _ Hwf Hne Hfa).
  intros s o b. rewrite bozo32_step. reflexivity.
Qed.

(** *** RRS *)

Lemma rrs_pow2_step (k : nat) :
  (k <= 16)%nat ->
  forall (OFFSET : Z) (W : nat) (state : Z * Z) (o n : byte),
  Rrs.process_byte_freestanding (2 ^ Z.of_nat k) OFFSET W state o n
  = Rrs.rrs_math (2 ^ Z.of_nat k) OFFSET W state o n.
Proof.
  intros Hk OFFSET W [a b] o n.
  set (M := 2 ^ Z.of_nat k).
  assert (HM : 0 < M) by (apply Z.pow_pos_nonneg; lia).
  assert (HM16 : M <= 2 ^ 16) by (apply Z.pow_le_mono_r; lia).
  assert (Hk' : 0 <= Z.of_nat k <= 32) by lia.
  unfold Rrs.process_byte_freestanding, Rrs.rrs_math. cbv zeta.
  assert (HA : u32 (u32 (a - byte_u32 o) + byte_u32 n) mod M
               = (a - byte_u32 o + byte_u32 n) mod M).
  { unfold M. rewrite HashFacts.u32_mod_pow2 by exact Hk'.
    rewrite <- Z.add_mod_idemp_l, HashFacts.u32_mod_pow2, Z.add_mod_idemp_l by (auto || lia).
    reflexivity. }
  assert (HX : u32 (u32 (Z.of_nat W) * u32 (byte_u32 o + OFFSET)) mod M
               = Z.of_nat W * (byte_u32 o + OFFSET) mod M).
  { unfold M. rewrite HashFacts.u32_mod_pow2 by exact Hk'.
    rewrite Z.mul_mod, !HashFacts.u32_mod_pow2, <- Z.mul_mod by (auto || lia). reflexivity. }
  assert (HB : forall a',
    u32 (u32 (b - u32 (u32 (Z.of_nat W) * u32 (byte_u32 o + OFFSET))) + a') mod M
    = (b - Z.of_nat W * (byte_u32 o + OFFSET) + a') mod M).
  { intros a'. unfold M. rewrite HashFacts.u32_mod_pow2 by exact Hk'.
    rewrite <- Z.add_mod_idemp_l, HashFacts.u32_mod_pow2 by (auto || lia).
    fold M. rewrite <- Zminus_mod_idemp_r, HX, Zminus_mod_idemp_r.
    rewrite Z.add_mod_idemp_l by lia. reflexivity. }
  rewrite HA, HB. f_equal. apply HashFacts.rrs_pack.
  - pose proof (Z.mod_pos_bound (a - byte_u32 o + byte_u32 n) M HM). lia.
  - pose proof (Z.mod_pos_bound (b - Z.of_nat W * (byte_u32 o + OFFSET)
                   + (a - byte_u32 o + byte_u32 n) mod M) M HM). lia.
Qed.

Lemma byte_sum_snoc (t : list byte) (b : byte) :
  byte_sum (t ++ [b]) = byte_sum t + byte_u32 b.
Proof. induction t as [|x t IH]; cbn; [ring|]. rewrite IH. ring. Qed.

Lemma weighted_snoc (t : list byte) (b : byte) :
  weighted (t ++ [b]) = weighted t + byte_sum (t ++ [b]).
Proof.
  induction t as [|x t IH]; cbn [app weighted byte_sum length]; [ring|].
  rewrite IH, length_app. cbn [length]. rewrite byte_sum_snoc. lia.
Qed.

Lemma byte_sum_zeros (n : nat) : byte_sum (repeat Byte.x00 n) = 0.
Proof. induction n as [|n IH]; [reflexivity|]. cbn [repeat byte_sum]. rewrite IH. reflexivity. Qed.

Lemma weighted_zeros (n : nat) : weighted (repeat Byte.x00 n) = 0.
Proof. induction n as [|n IH]; [reflexivity|]. cbn [repeat weighted]. rewrite IH. cbn. lia. Qed.

(** The state of a [Rolling] of width [W] over [Rrs] with a modulus
    [2^k], [k <= 16] (whose [WINDOW_SIZE] is the same [W]), fed [n] bytes
    from the all-zero window: the sum of the window, and its weighted sum
    less [n W OFFSET]. *)
Lemma rrs_feed_all (k : nat) (OFFSET : Z) (W : nat) :
  (k <= 16)%nat -> (0 < W)%nat ->
  forall bs, exists sums r',
    feed_all (Rrs.process_byte_freestanding (2 ^ Z.of_nat k) OFFSET W) (with_zeros (0, 0) W) bs
    = Some (sums, r')
    /\ window r' = skipn (length bs) (repeat Byte.x00 W ++ bs)
    /\ state r' = (byte_sum (window r') mod 2 ^ Z.of_nat k,
                   (weighted (window r') - Z.of_nat (length bs) * Z.of_nat W * OFFSET)
                     mod 2 ^ Z.of_nat k).
Proof.
  intros Hk HW bs.
  set (M := 2 ^ Z.of_nat k).
  assert (HM : 0 < M) by (apply Z.pow_pos_nonneg; lia).
  set (Inv := fun (s : Z * Z) (w : list byte) (n : nat) =>
    length w = W /\ s = (byte_sum w mod M, (weighted w - Z.of_nat n * Z.of_nat W * OFFSET) mod M)).
  assert (Hstep : forall s w n old b, Inv s w n -> hd_error w = Some old ->
     Inv (snd (Rrs.process_byte_freestanding M OFFSET W s old b)) (tl w ++ [b]) (S n)).
  { intros s w n old b [Hlen Hs] Hhd. destruct w as [|x t]; [discriminate|].
    injection Hhd as Hx. subst old. cbn [tl]. unfold M. rewrite rrs_pow2_step by exact Hk. fold M.
    rewrite Hs. unfold Rrs.rrs_math. cbn [snd]. split.
    - rewrite length_app. cbn [length] in *. lia.
    - assert (HA : (byte_sum (x :: t) mod M - byte_u32 x + byte_u32 b) mod M
                   = byte_sum (t ++ [b]) mod M).
      { replace (byte_sum (x :: t) mod M - byte_u32 x + byte_u32 b)
          with (byte_sum (x :: t) mod M + (byte_u32 b - byte_u32 x)) by ring.
        rewrite Z.add_mod_idemp_l by lia. f_equal.
        rewrite byte_sum_snoc. cbn [byte_sum]. ring. }
      rewrite HA. f_equal.
      replace ((weighted (x :: t) - Z.of_nat n * Z.of_nat W * OFFSET) mod M
               - Z.of_nat W * (byte_u32 x + OFFSET) + byte_sum (t ++ [b]) mod M)
        with ((weighted (x :: t) - Z.of_nat n * Z.of_nat W * OFFSET) mod M
              + (byte_sum (t ++ [b]) mod M - Z.of_nat W * (byte_u32 x + OFFSET))) by ring.
      rewrite Z.add_mod_idemp_l by lia.
      rewrite <- Z.add_mod_idemp_r, Zminus_mod_idemp_l, Z.add_mod_idemp_r by lia.
      f_equal. rewrite weighted_snoc. cbn [weighted] in *. rewrite Hlen.
      rewrite Nat2Z.inj_succ. ring. }
  assert (Hwf := RingFacts.with_zeros_wf (0, 0) W HW).
  assert (Hinv0 : Inv (state (with_zeros (0, 0) W)) (window (with_zeros (0, 0) W)) 0%nat).
  { rewrite window_with_zeros. split; [apply repeat_length|].
    rewrite byte_sum_zeros, weighted_zeros. reflexivity. }
  destruct (feed_all_inv _ Inv Hstep bs _ 0%nat Hwf Hinv0)
    as (sums & r' & Hfa & Hwf' & _ & Hwin & _ & Hs).
  exists sums, r'. rewrite window_with_zeros in Hwin.
  split; [exact Hfa|]. split; [exact Hwin|]. exact Hs.
Qed.

End WindowFacts.

(* ------------------------------------------------------------------ *)
(** ** Rolling hashes over a whole input *)
Module RollingHashes.
Import Ring Window WindowFacts.

Lemma feed_all_length {Checksum State} (process_byte : State -> byte -> byte -> Checksum * State)
    (bs : list byte) :
  forall (r : Rolling (State:=State)) sums r',
  feed_all process_byte r bs = Some (sums, r') -> length sums = length bs.
Proof.
  induction bs as [|b rest IH]; intros r sums r' H; cbn [feed_all] in H.
  - injection H as H1 H2. subst sums. reflexivity.
  - destruct (feed process_byte r b) as [[sum r1]|]; [|discriminate].
    destruct (feed_all process_byte r1 rest) as [[sums1 r1']|] eqn:E; [|discriminate].
    injection H as H1 H2. subst sums. cbn [length]. f_equal. exact (IH _ _ _ E).
Qed.

(** When the checksum is a function [g] of the new state, the checksum of
    the last byte fed is [g] of the final state. *)
Lemma feed_all_last_map {Checksum State} (process_byte : State -> byte -> byte -> Checksum * State)
    (g : State -> Checksum) :
  (forall s old b, fst (process_byte s old b) = g (snd (process_byte s old b))) ->
  forall bs (r : Rolling (State:=State)) sums r', wf r -> bs <> [] ->
  feed_all process_byte r bs = Some (sums, r') -> last sums = Some (g (state r')).
Proof.
  intros Hsum bs. induction bs as [|b rest IH]; intros r sums r' Hwf Hne Hfa; [congruence|].
  destruct (feed_window process_byte r b Hwf) as (old & r1 & _ & Hf & Hs & Hwf1 & _).
  cbn [feed_all] in Hfa. rewrite Hf in Hfa.
  destruct (feed_all process_byte r1 rest) as [[sums1 r1']|] eqn:E; [|discriminate].
  injection Hfa as Hs1 Hr1. subst sums r1'.
  destruct rest as [|b' rest'].
  - cbn in E. injection E as Hs2 Hr2. subst sums1 r'. cbn. rewrite Hsum, Hs. reflexivity.
  - specialize (IH r1 sums1 r' Hwf1 ltac:(discriminate) E).
    destruct sums1 as [|s1 sums1']; [discriminate|]. exact IH.
Qed.

Lemma skipn_repeat_byte (x : byte) (n : nat) : forall m,
  skipn n (repeat x m) = repeat x (m - n)%nat.
Proof.
  induction n as [|n IH]; intros m; [cbn; rewrite Nat.sub_0_r; reflexivity|].
  destruct m as [|m]; [reflexivity|]. cbn [repeat skipn]. rewrite IH. reflexivity.
Qed.

Lemma skipn_zeros_app (W : nat) (bs : list byte) :
  skipn (length bs) (repeat Byte.x00 W ++ bs)
  = repeat Byte.x00 (W - length bs)%nat ++ skipn (length bs - W)%nat bs.
Proof. rewrite skipn_app, repeat_length, skipn_repeat_byte. reflexivity. Qed.

Lemma poly_zeros_app (n : nat) (l : list byte) : poly (repeat Byte.x00 n ++ l) = poly l.
Proof. unfold poly. rewrite fold_left_app. f_equal. exact (poly_zeros n). Qed.

Lemma byte_sum_zeros_app (n : nat) (l : list byte) :
  byte_sum (repeat Byte.x00 n ++ l) = byte_sum l.
Proof. induction n as [|n IH]; [reflexivity|]. cbn [repeat app byte_sum]. rewrite IH. reflexivity. Qed.

Lemma weighted_zeros_app (n : nat) (l : list byte) :
  weighted (repeat Byte.x00 n ++ l) = weighted l.
Proof.
  induction n as [|n IH]; [reflexivity|]. cbn [repeat app weighted]. rewrite IH.
  change (byte_u32 Byte.x00) with 0. ring.
Qed.

(** Feeding any byte sequence to a well-formed [Rolling] never indexes
    out of the ring, yields one checksum per byte, keeps the ring
    well-formed and its width, and slides the window: the window after is
    the last [width] bytes of the window before followed by the bytes
    fed. *)
Theorem ring_window_slides {Checksum State}
    (process_byte : State -> byte -> byte -> Checksum * State)
    (r : Rolling (State:=State)) (bs : list byte) :
  wf r ->
  exists sums r', feed_all process_byte r bs = Some (sums, r')
    /\ length sums = length bs
    /\ wf r' /\ width r' = width r
    /\ window r' = skipn (length bs) (window r ++ bs).
Proof.
  intros Hwf.
  destruct (feed_all_inv process_byte (fun _ _ _ => True)
              (fun _ _ _ _ _ _ _ => I) bs r 0%nat Hwf I)
    as (sums & r' & Hfa & Hwf' & Hw & Hwin & _).
  exists sums, r'. split; [exact Hfa|]. split; [exact (feed_all_length _ _ _ _ _ Hfa)|].
  auto.
Qed.

(** [Bozo32] in a [Rolling] of width [W] (its [WINDOW_SIZE]) started
    from zeros: after feeding [bs], the state, and the checksum of the last
    byte, are the polynomial in base [PRIME] of the last [W] bytes of
    [bs] (all of [bs] when it is shorter), modulo [2^32]. *)
Theorem bozo32_rolling_hash (W : nat) (bs : list byte) :
  (0 < W)%nat ->
  exists sums r',
    feed_all (Bozo32.process_byte_freestanding W) (with_zeros Bozo32.INITIAL_STATE W) bs
    = Some (sums, r')
    /\ state r' = poly (skipn (length bs - W)%nat bs) mod 2 ^ 32
    /\ (bs <> [] -> last sums = Some (state r')).
Proof.
  intros HW.
  destruct (bozo32_feed_all W HW bs) as (sums & r' & Hfa & Hwin & Hs & Hlast).
  exists sums, r'. split; [exact Hfa|]. split; [|exact Hlast].
  rewrite Hs, Hwin, skipn_zeros_app, poly_zeros_app. reflexivity.
Qed.

(** [Rrs] with a modulus [2^k], [k <= 16], in a [Rolling] of width [W]
    (its [WINDOW_SIZE]) started from zeros: after feeding [bs], [a] is
    the sum of the last [W] bytes and [b] their sum weighted by distance
    from the end, less [length bs * W * OFFSET]; both modulo [2^k]. So [b]
    depends on how many bytes were fed, not only on the window.  The
    checksum of the last byte is [a * 2^16 + b]. *)
Theorem rrs_rolling_sums (k : nat) (OFFSET : Z) (W : nat) (bs : list byte) :
  (k <= 16)%nat -> (0 < W)%nat ->
  exists sums r',
    feed_all (Rrs.process_byte_freestanding (2 ^ Z.of_nat k) OFFSET W) (with_zeros (0, 0) W) bs
    = Some (sums, r')
    /\ state r' = (byte_sum (skipn (length bs - W)%nat bs) mod 2 ^ Z.of_nat k,
                   (weighted (skipn (length bs - W)%nat bs)
                    - Z.of_nat (length bs) * Z.of_nat W * OFFSET) mod 2 ^ Z.of_nat k)
    /\ (bs <> [] -> last sums = Some (fst (state r') * 2 ^ 16 + snd (state r'))).
Proof.
  intros Hk HW.
  destruct (rrs_feed_all k OFFSET W Hk HW bs) as (sums & r' & Hfa & Hwin & Hs).
  exists sums, r'. split; [exact Hfa|]. split.
  - rewrite Hs, Hwin, skipn_zeros_app, byte_sum_zeros_app, weighted_zeros_app. reflexivity.
  - intros Hne.
    refine (feed_all_last_map _ (fun s => fst s * 2 ^ 16 + snd s) _ bs _ _ _
              (RingFacts.with_zeros_wf (0, 0) W HW) Hne Hfa).
    intros [a b] o n. rewrite rrs_pow2_step by exact Hk. reflexivity.
Qed.

End RollingHashes.

(* ------------------------------------------------------------------ *)
(** ** The configurable RRS hasher (rrs.rs) *)
Module RrsClassic.

(** [pub enum Style] *)
Inductive Style := Rrs0 | Rrs1.

(** [pub struct Hasher]; [new] is its constructor. *)
Record Hasher := new {
  modulus : Z;
  offset : Z;
  style : Style;
  width : Z;
}.

(** [initial_state] *)
Definition initial_state : Z * Z := (0, 0).

(** [Hasher::process_byte], [u32] arithmetic wrapping; [%] by a zero
    [modulus] would panic, every constructor below passes [1 << 16]. *)
Definition process_byte (h : Hasher) (state : Z * Z) (old_byte new_byte : byte)
    : Z * (Z * Z) :=
  let '(a, b) := state in
  let a_new := u32 (u32 (a - byte_u32 old_byte) + byte_u32 new_byte) mod modulus h in
  let b_new :=
    u32 (u32 (b - u32 (width h * u32 (byte_u32 old_byte + offset h))) + a_new)
      mod modulus h in
  let sum :=
    match style h with
    | Rrs0 => u32 (a_new + u32 (Z.shiftl b_new 16))
    | Rrs1 => u32 (b_new + u32 (Z.shiftl a_new 16))
    end in
  (sum, (a_new, b_new)).

(** [rrs0(width)] and [rrs1(width)] *)
Definition rrs0 (width : Z) : Hasher := new (Z.shiftl 1 16) 31 Rrs0 width.
Definition rrs1 (width : Z) : Hasher := new (Z.shiftl 1 16) 31 Rrs1 width.

End RrsClassic.

Module RrsClassicFacts.
Import RrsClassic.

Lemma classic_a (a : Z) (o n : byte) :
  u32 (u32 (a - byte_u32 o) + byte_u32 n) mod 2 ^ 16 = (a - byte_u32 o + byte_u32 n) mod 2 ^ 16.
Proof.
  rewrite HashFacts.u32_mod_pow2 by lia.
  rewrite <- Z.add_mod_idemp_l, HashFacts.u32_mod_pow2, Z.add_mod_idemp_l by lia.
  reflexivity.
Qed.

Lemma classic_b (w b a' : Z) (o : byte) :
  u32 (u32 (b - u32 (w * u32 (byte_u32 o + 31))) + a') mod 2 ^ 16
  = (b - w * (byte_u32 o + 31) + a') mod 2 ^ 16.
Proof.
  assert (HX : u32 (w * u32 (byte_u32 o + 31)) mod 2 ^ 16 = w * (byte_u32 o + 31) mod 2 ^ 16).
  { rewrite HashFacts.u32_mod_pow2 by lia.
    rewrite Z.mul_mod, HashFacts.u32_mod_pow2, <- Z.mul_mod by lia. reflexivity. }
  rewrite HashFacts.u32_mod_pow2 by lia.
  rewrite <- Z.add_mod_idemp_l, HashFacts.u32_mod_pow2 by lia.
  rewrite <- Zminus_mod_idemp_r, HX, Zminus_mod_idemp_r.
  rewrite Z.add_mod_idemp_l by lia. reflexivity.
Qed.

(** [rrs1(width)] and [rrs0(width)] update [(a, b)] to
    [a' = (a - old + new) mod 2^16] and
    [b' = (b - width * (old + 31) + a') mod 2^16]; [rrs1] returns the
    checksum [a' * 2^16 + b'], [rrs0] the halves swapped,
    [b' * 2^16 + a']. *)
Theorem rrs_classic_update (w a b : Z) (o n : byte) :
  let a' := (a - byte_u32 o + byte_u32 n) mod 2 ^ 16 in
  let b' := (b - w * (byte_u32 o + 31) + a') mod 2 ^ 16 in
  process_byte (rrs1 w) (a, b) o n = (a' * 2 ^ 16 + b', (a', b'))
  /\ process_byte (rrs0 w) (a, b) o n = (b' * 2 ^ 16 + a', (a', b')).
Proof.
  intros a' b'.
  assert (Ha : 0 <= a' < 2 ^ 16) by (apply Z.mod_pos_bound; lia).
  assert (Hb : 0 <= b' < 2 ^ 16) by (apply Z.mod_pos_bound; lia).
  unfold process_byte, rrs1, rrs0. cbn [modulus offset width style].
  change (Z.shiftl 1 16) with (2 ^ 16).
  rewrite classic_a. fold a'. rewrite classic_b. fold b'.
  rewrite !HashFacts.rrs_pack by assumption. split; reflexivity.
Qed.

End RrsClassicFacts.

(* ------------------------------------------------------------------ *)
(** ** The generic iterator adapters of lib.rs: [Delimited], [Splits],
       [Spans].  A source iterator is the list of the items it yields
       before its first [None]; levels and thresholds ([u32]) are [nat]. *)
Module LibIter.

(** [pub enum Event<T>] *)
Inductive Event (T : Type) := Data (d : T) | Boundary (lev : nat).
Arguments Data {T} d.
Arguments Boundary {T} lev.

Section Adapters.
Context {T U : Type}.
(** [U: Leveled] *)
Context (level : U -> nat).

(** [pub struct Delimited<Source>] *)
Record Delimited := mkDelimited {
  threshold : nat;
  prepared : option nat;
  dsource : list (T * U);
}.

(** [Delimited::start] *)
Definition delimited_start (threshold : nat) (source : list (T * U)) : Delimited :=
  mkDelimited threshold None source.

(** [impl Iterator for Delimited]: [self.prepared.take()] first, then
    the next pair of the source, preparing a boundary when
    [lev >= self.threshold]. *)
Definition delimited_next (d : Delimited) : option (Event T) * Delimited :=
  match prepared d with
  | Some lev => (Some (Boundary lev), mkDelimited (threshold d) None (dsource d))
  | None =>
      match dsource d with
      | [] => (None, d)
      | (dat, sum) :: rest =>
          let lev := level sum in
          (Some (Data dat),
           mkDelimited (threshold d)
             (if Nat.leb (threshold d) lev then Some lev else None) rest)
      end
  end.

(** [pub struct Splits<Source>]; [reserve] only sets a capacity. *)
Record Splits := mkSplits {
  reserve : nat;
  preparing : option (list T);
  halt : bool;
  ssource : list (Event T);
}.

(** [Splits::start] *)
Definition splits_start (reserve : nat) (source : list (Event T)) : Splits :=
  mkSplits reserve None false source.

(** The [while let Some(ev) = self.source.next()] loop of
    [Splits::next], and what follows it: [Data] is pushed onto
    [preparing] (created on first use), [Boundary] returns
    [yield_prepared()]; at the end of the source [halt] is set and
    [yield_prepared()] returned. *)
Fixpoint splits_loop (s : Splits) (es : list (Event T)) : option (list T) * Splits :=
  match es with
  | [] => (preparing s, mkSplits (reserve s) None true [])
  | Data dat :: rest =>
      let p := match preparing s with None => [dat] | Some l => l ++ [dat] end in
      splits_loop (mkSplits (reserve s) (Some p) (halt s) rest) rest
  | Boundary _ :: rest => (preparing s, mkSplits (reserve s) None (halt s) rest)
  end.

(** [impl Iterator for Splits] *)
Definition splits_next (s : Splits) : option (list T) * Splits :=
  if halt s then (None, s) else splits_loop s (ssource s).

(** [pub struct Spans<Source>] *)
Record Spans := mkSpans {
  next_ix : nat;
  base_ix : nat;
  shalt : bool;
  psource : list (Event T);
}.

(** [Spans::start] *)
Definition spans_start (source : list (Event T)) : Spans := mkSpans 0 0 false source.

(** The loop of [Spans::next] and what follows it; the range
    [saved_ix..self.next_ix] is the pair [(saved_ix, next_ix)]. *)
Fixpoint spans_loop (sp : Spans) (es : list (Event T)) : option (nat * nat) * Spans :=
  match es with
  | [] =>
      if Nat.ltb (base_ix sp) (next_ix sp)
      then (Some (base_ix sp, next_ix sp), mkSpans (next_ix sp) (next_ix sp) true [])
      else (None, mkSpans (next_ix sp) (base_ix sp) true [])
  | Data _ :: rest => spans_loop (mkSpans (S (next_ix sp)) (base_ix sp) (shalt sp) rest) rest
  | Boundary _ :: rest =>
      (Some (base_ix sp, next_ix sp), mkSpans (next_ix sp) (next_ix sp) (shalt sp) rest)
  end.

(** [impl Iterator for Spans] *)
Definition spans_next (sp : Spans) : option (nat * nat) * Spans :=
  if shalt sp then (None, sp) else spans_loop sp (psource sp).

(** Collecting each iterator: [Delimited] over [source] yields at most
    [2 * length source] events, [Splits] and [Spans] at most one item per
    event. *)
Definition events (threshold : nat) (source : list (T * U)) : list (Event T) :=
  fst (drain delimited_next (S (2 * length source)) (delimited_start threshold source)).

Definition splits_run (reserve : nat) (es : list (Event T)) : list (list T) :=
  fst (drain splits_next (S (length es)) (splits_start reserve es)).

Definition spans_run (es : list (Event T)) : list (nat * nat) :=
  fst (drain spans_next (S (length es)) (spans_start es)).

(** Reference descriptions: the items whose level reaches [threshold] end
    a run ([cur] is the run being collected, yielded at the end when not
    empty), and the ranges of consecutive lengths from [start]. *)
Fixpoint marked_runs (threshold : nat) (cur : list T) (items : list (T * U)) : list (list T) :=
  match items with
  | [] => match cur with [] => [] | _ => [cur] end
  | (dat, sum) :: rest =>
      if Nat.leb threshold (level sum)
      then (cur ++ [dat]) :: marked_runs threshold [] rest
      else marked_runs threshold (cur ++ [dat]) rest
  end.

Fixpoint ranges_from (start : nat) (lens : list nat) : list (nat * nat) :=
  match lens with
  | [] => []
  | n :: rest => (start, start + n)%nat :: ranges_from (start + n) rest
  end.

End Adapters.
End LibIter.

Module LibIterFacts.
Import LibIter.

Section Facts.
Context {T U : Type} (level : U -> nat).

Definition item_events (thr : nat) (it : T * U) : list (Event T) :=
  Data (fst it) :: if Nat.leb thr (level (snd it)) then [Boundary (level (snd it))] else [].

Lemma drain_delimited_all (thr : nat) (src : list (T * U)) :
  forall fuel, (2 * length src < fuel)%nat ->
  fst (drain (delimited_next level) fuel (mkDelimited thr None src))
  = flat_map (item_events thr) src.
Proof.
  induction src as [|[dat sum] rest IH]; intros fuel Hf.
  - destruct fuel as [|f]; [cbn in Hf; lia|]. reflexivity.
  - destruct fuel as [|f]; [cbn in Hf; lia|].
    rewrite Chunking.drain_S_fst. cbn [delimited_next prepared dsource threshold fst snd].
    unfold item_events. cbn [fst snd flat_map]. cbv zeta.
    destruct (Nat.leb thr (level sum)).
    + destruct f as [|f]; [cbn [length] in Hf; lia|].
      rewrite Chunking.drain_S_fst. cbn [delimited_next prepared dsource threshold fst snd app].
      rewrite IH by (cbn [length] in Hf; lia). reflexivity.
    + rewrite IH by (cbn [length] in Hf; lia). reflexivity.
Qed.

(** Structural description of [Splits] polled to its first [None]. *)
Fixpoint splits_all (p : option (list T)) (es : list (Event T)) : list (list T) :=
  match es with
  | [] => match p with None => [] | Some l => [l] end
  | Data dat :: rest =>
      splits_all (Some (match p with None => [dat] | Some l => l ++ [dat] end)) rest
  | Boundary _ :: rest => match p with None => [] | Some l => l :: splits_all None rest end
  end.

Lemma drain_splits_halted (f : nat) (s : Splits (T:=T)) :
  halt s = true -> fst (drain splits_next f s) = [].
Proof.
  intros H. destruct f; [reflexivity|]. rewrite Chunking.drain_S_fst.
  unfold splits_next. rewrite H. reflexivity.
Qed.

Lemma drain_splits_all (es : list (Event T)) :
  forall rsv p f, (length es <= f)%nat ->
  fst (drain splits_next (S f) (mkSplits rsv p false es)) = splits_all p es.
Proof.
  induction es as [|[dat|lev] rest IH]; intros rsv p f Hf.
  - rewrite Chunking.drain_S_fst. cbn. destruct p; [|reflexivity].
    rewrite drain_splits_halted by reflexivity. reflexivity.
  - rewrite Chunking.drain_S_fst. unfold splits_next. cbn [halt ssource splits_loop preparing reserve splits_all].
    rewrite <- (IH rsv _ f) by (cbn [length] in Hf; lia).
    rewrite Chunking.drain_S_fst. reflexivity.
  - rewrite Chunking.drain_S_fst. unfold splits_next. cbn [halt ssource splits_loop preparing reserve splits_all fst snd].
    destruct p as [l|]; [|reflexivity].
    destruct f as [|f]; [cbn [length] in Hf; lia|].
    rewrite IH by (cbn [length] in Hf; lia). reflexivity.
Qed.

Definition opt_run (cur : list T) : option (list T) :=
  match cur with [] => None | _ => Some cur end.

Lemma splits_all_marked (thr : nat) (src : list (T * U)) :
  forall cur,
  splits_all (opt_run cur) (flat_map (item_events thr) src)
  = marked_runs level thr cur src.
Proof.
  induction src as [|[dat sum] rest IH]; intros cur.
  - destruct cur; reflexivity.
  - unfold item_events at 1. cbn [flat_map fst snd app splits_all marked_runs].
    assert (Hp : match opt_run cur with None => [dat] | Some l => l ++ [dat] end = cur ++ [dat])
      by (destruct cur; reflexivity).
    rewrite Hp.
    destruct (Nat.leb thr (level sum)); cbn [app splits_all].
    + rewrite <- (IH []). reflexivity.
    + rewrite <- IH. destruct cur; reflexivity.
Qed.

(** Structural description of [Spans] polled to its first [None]. *)
Fixpoint spans_all (nx bx : nat) (es : list (Event T)) : list (nat * nat) :=
  match es with
  | [] => if Nat.ltb bx nx then [(bx, nx)] else []
  | Data _ :: rest => spans_all (S nx) bx rest
  | Boundary _ :: rest => (bx, nx) :: spans_all nx nx rest
  end.

Lemma drain_spans_halted (f : nat) (sp : Spans (T:=T)) :
  shalt sp = true -> fst (drain spans_next f sp) = [].
Proof.
  intros H. destruct f; [reflexivity|]. rewrite Chunking.drain_S_fst.
  unfold spans_next. rewrite H. reflexivity.
Qed.

Lemma drain_spans_all (es : list (Event T)) :
  forall nx bx f, (length es <= f)%nat ->
  fst (drain spans_next (S f) (mkSpans nx bx false es)) = spans_all nx bx es.
Proof.
  induction es as [|[dat|lev] rest IH]; intros nx bx f Hf.
  - rewrite Chunking.drain_S_fst. unfold spans_next.
    cbn [shalt psource spans_loop base_ix next_ix spans_all].
    destruct (Nat.ltb bx nx); cbn [fst snd]; [|reflexivity].
    rewrite drain_spans_halted by reflexivity. reflexivity.
  - rewrite Chunking.drain_S_fst. unfold spans_next.
    cbn [shalt psource spans_loop base_ix next_ix spans_all].
    rewrite <- (IH (S nx) bx f) by (cbn [length] in Hf; lia).
    rewrite Chunking.drain_S_fst. reflexivity.
  - rewrite Chunking.drain_S_fst. unfold spans_next.
    cbn [shalt psource spans_loop base_ix next_ix spans_all fst snd].
    destruct f as [|f]; [cbn [length] in Hf; lia|].
    rewrite IH by (cbn [length] in Hf; lia). reflexivity.
Qed.

Lemma spans_all_marked (thr : nat) (src : list (T * U)) :
  forall n cur,
  spans_all (n + length cur) n (flat_map (item_events thr) src)
  = ranges_from n (map length (marked_runs level thr cur src)).
Proof.
  induction src as [|[dat sum] rest IH]; intros n cur.
  - destruct cur as [|x cur']; cbn [spans_all flat_map marked_runs map ranges_from length].
    + rewrite Nat.add_0_r, Nat.ltb_irrefl. reflexivity.
    + replace (Nat.ltb n (n + S (length cur'))) with true by (symmetry; apply Nat.ltb_lt; lia).
      reflexivity.
  - unfold item_events at 1. cbn [flat_map fst snd app spans_all marked_runs].
    destruct (Nat.leb thr (level sum)); cbn [app spans_all].
    + cbn [map ranges_from]. rewrite length_app. cbn [length].
      rewrite <- (IH (n + (length cur + 1))%nat []). cbn [length].
      f_equal; [f_equal; lia|]. f_equal; lia.
    + rewrite <- IH. rewrite length_app. cbn [length]. f_equal. lia.
Qed.

Lemma marked_runs_concat (thr : nat) (src : list (T * U)) :
  forall cur, concat (marked_runs level thr cur src) = cur ++ map fst src.
Proof.
  induction src as [|[dat sum] rest IH]; intros cur.
  - destruct cur; cbn; [reflexivity|]. rewrite !app_nil_r. reflexivity.
  - cbn [marked_runs map fst]. destruct (Nat.leb thr (level sum)).
    + cbn [concat]. rewrite IH. rewrite <- app_assoc. reflexivity.
    + rewrite IH. rewrite <- app_assoc. reflexivity.
Qed.

Lemma marked_runs_nonempty (thr : nat) (src : list (T * U)) :
  forall cur, Forall (fun l : list T => l <> []) (marked_runs level thr cur src).
Proof.
  induction src as [|[dat sum] rest IH]; intros cur.
  - destruct cur; constructor; [discriminate | constructor].
  - cbn [marked_runs]. destruct (Nat.leb thr (level sum)); [|apply IH].
    constructor; [|apply IH]. destruct cur; discriminate.
Qed.

(** [Delimited] over a source of pairs [(dat, sum)] yields [Data dat]
    for each pair, followed by [Boundary (level sum)] exactly when that
    level reaches the thr; so a [Boundary] always directly follows a
    [Data]. *)
Theorem lib_delimited_events (thr : nat) (src : list (T * U)) :
  events level thr src
  = flat_map (fun it : T * U =>
       Data (fst it) :: if Nat.leb thr (level (snd it))
                        then [Boundary (level (snd it))] else []) src.
Proof. unfold events, delimited_start. apply drain_delimited_all. lia. Qed.

(** [Splits] over [Delimited] cuts the data after each item whose level
    reaches the thr, and yields the rest at the end when it is not
    empty: its chunks are never empty and concatenate to the data. *)
Theorem lib_splits_runs (thr reserve : nat) (src : list (T * U)) :
  splits_run reserve (events level thr src) = marked_runs level thr [] src
  /\ concat (splits_run reserve (events level thr src)) = map fst src
  /\ Forall (fun l : list T => l <> []) (splits_run reserve (events level thr src)).
Proof.
  assert (H : splits_run reserve (events level thr src) = marked_runs level thr [] src).
  { unfold splits_run, splits_start. rewrite drain_splits_all by lia.
    unfold events, delimited_start. rewrite drain_delimited_all by lia.
    exact (splits_all_marked thr src []). }
  rewrite H. split; [reflexivity|]. split.
  - apply marked_runs_concat.
  - apply marked_runs_nonempty.
Qed.

(** [Spans] over [Delimited] yields the index ranges of the chunks of
    [Splits] over the same events: consecutive, starting at 0, one per
    chunk with its length. *)
Theorem lib_spans_ranges (thr reserve : nat) (src : list (T * U)) :
  spans_run (events level thr src)
  = ranges_from 0 (map length (splits_run reserve (events level thr src))).
Proof.
  unfold spans_run, spans_start, splits_run, splits_start.
  rewrite drain_spans_all, drain_splits_all by lia.
  unfold events, delimited_start. rewrite drain_delimited_all by lia.
  pose proof (splits_all_marked thr src []) as H. cbn [opt_run] in H. rewrite H.
  exact (spans_all_marked thr src 0 []).
Qed.

End Facts.
End LibIterFacts.

(* ------------------------------------------------------------------ *)
(** ** Composition of [Hasher::process_slice] (lib.rs) *)
Module BatchedCompose.
Import Batched.

Lemma combine_app_eq {A B : Type} (a1 a2 : list A) (b1 b2 : list B) :
  length a1 = length b1 -> combine (a1 ++ a2) (b1 ++ b2) = combine a1 b1 ++ combine a2 b2.
Proof.
  revert b1. induction a1 as [|x a1 IH]; intros [|y b1] H; cbn in H; try discriminate.
  - reflexivity.
  - cbn. f_equal. apply IH. lia.
Qed.

Section Compose.
Context {Checksum State : Type} (default_checksum : Checksum).
Context (process_byte : State -> nat -> byte -> byte -> Checksum * State).

Lemma fold_step_first (width : nat) (l : list (byte * byte)) (c c' : Checksum) (s : State) :
  l <> [] ->
  fold_left (fun acc p => process_byte (snd acc) width (fst p) (snd p)) l (c, s)
  = fold_left (fun acc p => process_byte (snd acc) width (fst p) (snd p)) l (c', s).
Proof. destruct l as [|p l]; [congruence|]. reflexivity. Qed.

(** [process_slice] over two consecutive pieces of equal-length old and
    new data is [process_slice] over the first piece, then over the second
    from the state it returns: the state always, and the checksum when the
    second piece is not empty (otherwise the checksum is the first
    piece's). *)
Theorem process_slice_compose (state : State) (width : nat)
    (old1 new1 old2 new2 : list byte) :
  length old1 = length new1 ->
  let r1 := process_slice default_checksum process_byte state width old1 new1 in
  snd (process_slice default_checksum process_byte state width (old1 ++ old2) (new1 ++ new2))
  = snd (process_slice default_checksum process_byte (snd r1) width old2 new2)
  /\ (old2 <> [] -> new2 <> [] ->
      process_slice default_checksum process_byte state width (old1 ++ old2) (new1 ++ new2)
      = process_slice default_checksum process_byte (snd r1) width old2 new2)
  /\ (old2 = [] \/ new2 = [] ->
      process_slice default_checksum process_byte state width (old1 ++ old2) (new1 ++ new2)
      = r1).
Proof.
  intros Hlen r1. unfold r1, process_slice.
  rewrite combine_app_eq by exact Hlen. rewrite fold_left_app.
  destruct (fold_left _ (combine old1 new1) (default_checksum, state)) as [c s]. cbn [snd].
  split; [|split].
  - destruct (combine old2 new2) as [|p l] eqn:E; [reflexivity|].
    rewrite (fold_step_first width (p :: l) c default_checksum s) by discriminate.
    reflexivity.
  - intros H1 H2. destruct old2 as [|x o]; [congruence|]. destruct new2 as [|y n]; [congruence|].
    apply (fold_step_first width (combine (x :: o) (y :: n))). cbn. discriminate.
  - intros [-> | ->]; [reflexivity|]. rewrite combine_nil. reflexivity.
Qed.

End Compose.
End BatchedCompose.

(* ------------------------------------------------------------------ *)
(** ** Instances of the theorems with hypotheses, on concrete inputs *)
Module Witnesses.

Definition sample : list byte :=
  [Byte.x17; Byte.x00; Byte.xff; Byte.x42; Byte.x08; Byte.x00; Byte.x00;
   Byte.x90; Byte.x01; Byte.x7e].

(** [chunk_length_bound] for the Bozo32 engine of width 64, with
    [THRESHOLD = 1], [MIN_SIZE = 2], [MAX_SIZE = 3], on [sample]. *)
Lemma chunk_length_bound_witness :
  (2 <= 3)%nat /\ (0 < 3)%nat /\
  Forall (Chunking.chunk_len_ok 2 3)
    (Chunking.segments 0
       (Chunking.events Example.feed Example.engine_state Example.level 1 2 3
          Example.start sample))
  /\ Forall (Chunking.chunk_len_ok 2 3)
       (Chunking.distances_run Example.feed Example.engine_state Example.level 1 2 3
          Example.start sample).
Proof.
  split; [lia|]. split; [lia|].
  apply (Chunking.chunk_length_bound Example.feed Example.engine_state Example.level 1 2 3);
    vm_compute; lia.
Defined.

(** [rrs_update_pow2] at [MODULUS = 2^16] (rrs.rs's [1 << 16]),
    [OFFSET = 31], window 64. *)
Lemma rrs_update_pow2_witness :
  (16 <= 16)%nat /\
  Rrs.process_byte_freestanding (2 ^ Z.of_nat 16) 31 64 (40000, 65000) Byte.xfe Byte.x03
  = Rrs.rrs_math (2 ^ Z.of_nat 16) 31 64 (40000, 65000) Byte.xfe Byte.x03.
Proof.
  split; [lia|].
  apply (HashFacts.rrs_update_pow2 16); lia.
Defined.

(** [ring_window_slides] for Bozo32 over a zero ring of width 4, fed
    [sample]. *)
Lemma ring_window_slides_witness :
  Ring.wf (Ring.with_zeros 0 4) /\
  exists sums r',
    Ring.feed_all (Bozo32.process_byte_freestanding 4) (Ring.with_zeros 0 4) sample
    = Some (sums, r')
    /\ length sums = length sample
    /\ Ring.wf r' /\ Ring.width r' = Ring.width (Ring.with_zeros 0 4)
    /\ Window.window r' = skipn (length sample) (Window.window (Ring.with_zeros 0 4) ++ sample).
Proof.
  split; [unfold Ring.wf; cbn; split; [lia | reflexivity]|].
  apply RollingHashes.ring_window_slides.
  unfold Ring.wf; cbn; split; [lia | reflexivity].
Defined.

(** [bozo32_rolling_hash] at width 4 on [sample]. *)
Lemma bozo32_rolling_hash_witness :
  (0 < 4)%nat /\
  exists sums r',
    Ring.feed_all (Bozo32.process_byte_freestanding 4)
      (Ring.with_zeros Bozo32.INITIAL_STATE 4) sample = Some (sums, r')
    /\ Ring.state r' = Window.poly (skipn (length sample - 4)%nat sample) mod 2 ^ 32
    /\ (sample <> [] -> last sums = Some (Ring.state r')).
Proof.
  split; [lia|].
  apply RollingHashes.bozo32_rolling_hash. lia.
Defined.

(** [rrs_rolling_sums] at modulus [2^16], [OFFSET = 31], width 4, on
    [sample]. *)
Lemma rrs_rolling_sums_witness :
  (16 <= 16)%nat /\ (0 < 4)%nat /\
  exists sums r',
    Ring.feed_all (Rrs.process_byte_freestanding (2 ^ Z.of_nat 16) 31 4)
      (Ring.with_zeros (0, 0) 4) sample = Some (sums, r')
    /\ Ring.state r'
       = (Window.byte_sum (skipn (length sample - 4)%nat sample) mod 2 ^ Z.of_nat 16,
          (Window.weighted (skipn (length sample - 4)%nat sample)
           - Z.of_nat (length sample) * Z.of_nat 4 * 31) mod 2 ^ Z.of_nat 16)
    /\ (sample <> [] ->
        last sums = Some (fst (Ring.state r') * 2 ^ 16 + snd (Ring.state r'))).
Proof.
  split; [lia|]. split; [lia|].
  apply RollingHashes.rrs_rolling_sums; lia.
Defined.

(** [process_slice_compose] for the [TrivialHasher] of lib.rs's tests. *)
Lemma process_slice_compose_witness :
  length [Byte.x01; Byte.x02] = length [Byte.x03; Byte.x04] /\
  let r1 := Batched.process_slice Byte.x00 Batched.trivial_process_byte tt 4
              [Byte.x01; Byte.x02] [Byte.x03; Byte.x04] in
  snd (Batched.process_slice Byte.x00 Batched.trivial_process_byte tt 4
         ([Byte.x01; Byte.x02] ++ [Byte.x05]) ([Byte.x03; Byte.x04] ++ [Byte.x06]))
  = snd (Batched.process_slice Byte.x00 Batched.trivial_process_byte (snd r1) 4
           [Byte.x05] [Byte.x06])
  /\ ([Byte.x05] <> [] -> [Byte.x06] <> [] ->
      Batched.process_slice Byte.x00 Batched.trivial_process_byte tt 4
        ([Byte.x01; Byte.x02] ++ [Byte.x05]) ([Byte.x03; Byte.x04] ++ [Byte.x06])
      = Batched.process_slice Byte.x00 Batched.trivial_process_byte (snd r1) 4
          [Byte.x05] [Byte.x06])
  /\ ([Byte.x05] = [] \/ [Byte.x06] = [] ->
      Batched.process_slice Byte.x00 Batched.trivial_process_byte tt 4
        ([Byte.x01; Byte.x02] ++ [Byte.x05]) ([Byte.x03; Byte.x04] ++ [Byte.x06])
      = r1).
Proof.
  split; [reflexivity|].
  apply BatchedCompose.process_slice_compose. reflexivity.
Defined.

End Witnesses.

(* ------------------------------------------------------------------ *)
(** ** Inputs on which the code departs from the properties as first stated *)
Module Counterexamples.

(** With [MIN_SIZE = MAX_SIZE = 0] (so [MAX_SIZE >= MIN_SIZE]) and a
    threshold no [u32] level reaches, the one-byte input is one extent of
    length 1, ended by [Eof]: longer than [MAX_SIZE], since the [Capped]
    test [counter == MAX_SIZE] runs only after the counter has grown. *)
Lemma chunk_length_bound_counterexample :
  (0 <= 0)%nat /\
  Chunking.distances_run Example.feed Example.engine_state Example.level 33 0 0
    Example.start [Byte.x01]
  = [(1%nat, Chunking.Eof 1)] /\
  ~ Forall (Chunking.chunk_len_ok 0 0)
      (Chunking.distances_run Example.feed Example.engine_state Example.level 33 0 0
         Example.start [Byte.x01]).
Proof.
  split; [lia|]. split; [vm_compute; reflexivity|].
  intros H. inversion H as [|x l Hx _]; subst. vm_compute in Hx. lia.
Qed.

(** On the empty input the detector yields the single event [Eof], which
    the grammar [Data* (Boundary | Capped) (Data* (Boundary | Capped))* Data* Eof]
    does not accept: it needs a [Boundary] or [Capped] event. *)
Lemma event_grammar_counterexample :
  Chunking.events Example.feed Example.engine_state Example.level 1 2 3 Example.start []
  = [Chunking.Bnd (Chunking.Eof 0)]
  /\ Chunking.event_grammar false
       (Chunking.events Example.feed Example.engine_state Example.level 1 2 3
          Example.start []) = false.
Proof. split; vm_compute; reflexivity. Qed.

(** [impl Leveled for bool] is [!self as u32]: level 1 for [false], 0
    for [true]. *)
Lemma level_bool_counterexample :
  Leveled.level_bool false <> 0%nat /\ Leveled.level_bool true <> 1%nat.
Proof. vm_compute. split; discriminate. Qed.

(** [Rrs1]'s modulus 25536 does not divide [2^32]: from state [(0, 0)],
    dropping byte 1 and adding byte 0 gives [a' = 16383] in the code
    ([(2^32 - 1) mod 25536]) and [a' = 25535] ([-1 mod 25536]) in
    modular arithmetic. *)
Lemma rrs1_counterexample :
  fst (snd (Rrs.process_byte_freestanding Rrs.RRS1_MODULUS Rrs.RRS1_OFFSET 64
              (0, 0) Byte.x01 Byte.x00)) = 16383
  /\ fst (snd (Rrs.rrs_math Rrs.RRS1_MODULUS Rrs.RRS1_OFFSET 64
                 (0, 0) Byte.x01 Byte.x00)) = 25535
  /\ Rrs.process_byte_freestanding Rrs.RRS1_MODULUS Rrs.RRS1_OFFSET 64 (0, 0) Byte.x01 Byte.x00
     <> Rrs.rrs_math Rrs.RRS1_MODULUS Rrs.RRS1_OFFSET 64 (0, 0) Byte.x01 Byte.x00.
Proof.
  split; [vm_compute; reflexivity|]. split; [vm_compute; reflexivity|].
  vm_compute. congruence.
Qed.

(** Mismatched lengths are not refused: [process_slice] with the trivial
    hasher on old [[1; 2]] and new [[7]] returns the result for old [[1]];
    [process_block] with [BLOCK_SIZE = 2] and Bozo32 returns a result for
    a one-byte new block. *)
Lemma batched_length_counterexample :
  Batched.process_slice Byte.x00 Batched.trivial_process_byte tt 1
    [Byte.x01; Byte.x02] [Byte.x07]
  = Batched.process_slice Byte.x00 Batched.trivial_process_byte tt 1 [Byte.x01] [Byte.x07]
  /\ Batched.process_block 0 (Bozo32.process_byte_freestanding 64) 2 0
       [Byte.x01; Byte.x02] [Byte.x07] <> None.
Proof. split; [reflexivity | vm_compute; discriminate]. Qed.

End Counterexamples.
